(** * OneDimPPMNuclide: a one dimensional permeable porous medium
      nuclide transport model (Cyder)

    Shallow embedding of [src/OneDimPPMNuclide.cpp] and of the helpers it
    calls, with the properties of its specification.

    Conventions of the embedding.
    - [int] (timesteps, isotope identifiers) is [Z]; [iso/1000] is the
      truncating quotient [Z.quot].  Signed overflow is undefined behaviour in
      C++ and is outside the model.
    - [double] is a real number or the token [FPExc], see [double] below.
    - [std::map<Iso, double>] is [gmap Z double]; a loop over a map is a
      [map_fold].  The results proved do not depend on the iteration order.
    - [std::deque<mat_rsrc_ptr>] is a [list], oldest parcel first.
    - [boost::math::erfc] is the complementary error function [erfc]. *)

From Stdlib Require Import Reals Lra Lia ZArith.
From stdpp Require Import base option list gmap fin_maps.

Local Open Scope R_scope.

(** ** The complementary error function *)

Definition gauss (u : R) : R := exp (- (u * u)).

Lemma gauss_continuity : continuity gauss.
Proof. unfold gauss. reg. Qed.

Lemma gauss_integrable (a b : R) : Riemann_integrable gauss a b.
Proof.
  destruct (Rle_dec a b) as [Hab | Hab].
  - apply continuity_implies_RiemannInt; [exact Hab | intros; apply gauss_continuity].
  - apply RiemannInt_P1, continuity_implies_RiemannInt;
      [lra | intros; apply gauss_continuity].
Qed.

(** erf x = 2/sqrt(pi) * integral of exp(-u^2) from 0 to x, and
    erfc x = 1 - erf x: what [boost::math::erfc] computes. *)
Definition erf (x : R) : R := 2 / sqrt PI * RiemannInt (gauss_integrable 0 x).
Definition erfc (x : R) : R := 1 - erf x.

(** ** Floating point values *)

(** A [double] is modelled by the real number it stands for.  Rounding and
    overflow are not modelled.  The two operations of the source that IEEE 754
    answers with an infinity or a NaN, a division by zero and the square root
    of a negative number, yield [FPExc], and every operation that receives
    [FPExc] returns it: [FPExc] records that such an operation took place in
    the computation of the value.  What IEEE 754 makes of the value afterwards
    is not tracked. *)
Inductive double : Type :=
  | Num (x : R)
  | FPExc.

Definition lift1 (f : R -> R) (a : double) : double :=
  match a with
  | Num x => Num (f x)
  | FPExc => FPExc
  end.

Definition lift2 (f : R -> R -> R) (a b : double) : double :=
  match a, b with
  | Num x, Num y => Num (f x y)
  | _, _ => FPExc
  end.

Definition dadd : double -> double -> double := lift2 Rplus.
Definition dsub : double -> double -> double := lift2 Rminus.
Definition dmul : double -> double -> double := lift2 Rmult.
Definition dneg : double -> double := lift1 Ropp.
Definition dexp : double -> double := lift1 exp.

(** [a / b] on doubles. *)
Definition ddiv (a b : double) : double :=
  match a, b with
  | Num x, Num y => if Req_dec_T y 0 then FPExc else Num (x / y)
  | _, _ => FPExc
  end.

(** [pow(a, 0.5)]. *)
Definition pow_half (a : double) : double :=
  match a with
  | Num x => if Rlt_dec x 0 then FPExc else Num (sqrt x)
  | FPExc => FPExc
  end.

(** [pow(a, 2)]. *)
Definition pow_two (a : double) : double := dmul a a.

(** Conversion of an [int] to [double]. *)
Definition of_int (n : Z) : double := Num (IZR n).

Definition is_num (a : double) : Prop := exists x, a = Num x.

Declare Scope double_scope.
Delimit Scope double_scope with D.
Bind Scope double_scope with double.
Infix "+" := dadd : double_scope.
Infix "-" := dsub : double_scope.
Infix "*" := dmul : double_scope.
Infix "/" := ddiv : double_scope.
Notation "- a" := (dneg a) : double_scope.

(** ** Isotope keyed maps *)

(** [Iso] and [Elem] are [int]; [IsoConcMap], [ConcGradMap] and
    [IsoFluxMap] are [std::map<Iso, double>], here [gmap Z double];
    [ConcHist] is [std::map<int, IsoConcMap>]. *)

(** [m[iso]] read on a [std::map<Iso, double>]: a missing key reads as the
    value-initialised [0.0]. *)
Definition at_iso (m : gmap Z double) (iso : Z) : double :=
  default (Num 0) (m !! iso).

(** [m.count(iso) != 0]. *)
Definition has_iso (m : gmap Z double) (iso : Z) : bool :=
  bool_decide (is_Some (m !! iso)).

(** ** Geometry and material table *)

(** The [Geometry] class is declared outside [OneDimPPMNuclide.cpp]; the cell
    reads these four numbers from it. *)
Record Geometry : Type := mkGeometry {
  inner_radius : R;
  outer_radius : R;
  radial_midpoint : R;
  volume : R
}.

(** A material parcel is a map from isotope to mass in kg, [gmap Z R].  The
    ledger owns its parcels exclusively, so a parcel is a value. *)

(** ** The cell *)

Record OneDimPPMNuclide : Type := mkCell {
  v_ : R;                          (* advective velocity *)
  porosity_ : R;
  rho_ : R;
  Co_ : gmap Z double;
  Ci_ : gmap Z double;
  geom_ : Geometry;
  last_updated_ : Z;
  wastes_ : list (gmap Z R);       (* inventory ledger, oldest first *)
  vec_hist_ : gmap Z (gmap Z R * R);
  conc_hist_ : gmap Z (gmap Z double);
  mat_table_D : Z -> R             (* mat_table_->D(elem) *)
}.

Definition v (c : OneDimPPMNuclide) : R := v_ c.
Definition porosity (c : OneDimPPMNuclide) : R := porosity_ c.
Definition last_updated (c : OneDimPPMNuclide) : Z := last_updated_ c.
Definition geom (c : OneDimPPMNuclide) : Geometry := geom_ c.

Definition set_last_updated (t : Z) (c : OneDimPPMNuclide) : OneDimPPMNuclide :=
  mkCell (v_ c) (porosity_ c) (rho_ c) (Co_ c) (Ci_ c) (geom_ c) t
         (wastes_ c) (vec_hist_ c) (conc_hist_ c) (mat_table_D c).

Definition set_wastes (w : list (gmap Z R)) (c : OneDimPPMNuclide) : OneDimPPMNuclide :=
  mkCell (v_ c) (porosity_ c) (rho_ c) (Co_ c) (Ci_ c) (geom_ c) (last_updated_ c)
         w (vec_hist_ c) (conc_hist_ c) (mat_table_D c).

Definition set_vec_hist (h : gmap Z (gmap Z R * R)) (c : OneDimPPMNuclide) : OneDimPPMNuclide :=
  mkCell (v_ c) (porosity_ c) (rho_ c) (Co_ c) (Ci_ c) (geom_ c) (last_updated_ c)
         (wastes_ c) h (conc_hist_ c) (mat_table_D c).

Definition set_conc_hist (h : gmap Z (gmap Z double)) (c : OneDimPPMNuclide) : OneDimPPMNuclide :=
  mkCell (v_ c) (porosity_ c) (rho_ c) (Co_ c) (Ci_ c) (geom_ c) (last_updated_ c)
         (wastes_ c) (vec_hist_ c) h (mat_table_D c).

(** ** The analytic solver *)

Definition derfc : double -> double := lift1 erfc.

(** [OneDimPPMNuclide::calculate_conc(C_0, C_i, r, iso, t0, t)], the overload
    for one isotope. *)
Definition calculate_conc (c : OneDimPPMNuclide) (C_0 C_i : gmap Z double)
    (r : R) (iso : Z) (t0 t : Z) : double :=
  let D := Num (mat_table_D c (Z.quot iso 1000)) in
  let pi := Num PI in
  let R := Num 1 in
  let r := Num r in
  let v := Num (v c) in
  let At_frac := ((R * r - v * of_int t) / (Num 2 * pow_half (D * R * of_int t)))%D in
  let At := (Num (1/2) * derfc At_frac)%D in
  (* t - t0 is a difference of ints *)
  let Att0_frac :=
    ((R * r - v * of_int t) / (Num 2 * pow_half (D * R * of_int (t - t0))))%D in
  let Att0 := (Num (1/2) * derfc Att0_frac)%D in
  let A := (At - Att0)%D in
  let B1_frac := ((R * r - v * of_int t) / (Num 2 * pow_half (D * R * of_int t)))%D in
  let B1 := (Num (1/2) * derfc B1_frac)%D in
  let B2_exp := (- pow_two (R * r - v * of_int t) / (Num 4 * D * R * of_int t))%D in
  let B2 := (pow_half (v * v * of_int t / (pi * R * D)) * dexp B2_exp)%D in
  let B3_exp := (v * r / D)%D in
  let B3_frac := ((R * r + v * of_int t) / (Num 2 * pow_half (D * R * of_int t)))%D in
  let B3_factor :=
    (Num (- (1/2)) * (Num 1 + (v * r) / D + (v * v * of_int t) / (D * R)))%D in
  let B3 := (B3_factor * dexp B3_exp * derfc B3_frac)%D in
  let B := (at_iso C_i iso * (B1 + B2 + B3))%D in
  (at_iso C_0 iso * A + B)%D.

(** ** Helpers of [MatTools] *)

(** Modelled from the spec: [MatTools::V_f(V_T, theta)] is defined outside
    [OneDimPPMNuclide.cpp].  The pore volume is the total volume times the
    porosity. *)
Definition MatTools_V_f (V_T theta : R) : R := V_T * theta.

(** Modelled from the spec: [MatTools::scaleConcMap(C, scalar)] is defined outside
    [OneDimPPMNuclide.cpp].  Every concentration is multiplied by the scalar. *)
Definition scaleConcMap (C : gmap Z double) (scalar : double) : gmap Z double :=
  (fun x => (x * scalar)%D) <$> C.

(** Modelled from the spec: [MatTools::addConcMaps(orig, to_add)] is defined
    outside [OneDimPPMNuclide.cpp].  Isotope-wise sum; an isotope held by one map only
    keeps its value. *)
Definition addConcMaps (orig to_add : gmap Z double) : gmap Z double :=
  union_with (fun x y => Some (x + y)%D) orig to_add.

(** ** Results of a call *)

Inductive CycException : Type :=
  | InsufficientInventory.

(** A call returns, stops the program on a failed [assert], or throws. *)
Inductive outcome (A : Type) : Type :=
  | Returns (a : A)
  | AssertionFailed
  | Throws (e : CycException).
Arguments Returns {A} a.
Arguments AssertionFailed {A}.
Arguments Throws {A} e.

Definition bind {A B : Type} (o : outcome A) (k : A -> outcome B) : outcome B :=
  match o with
  | Returns a => k a
  | AssertionFailed => AssertionFailed
  | Throws e => Throws e
  end.

(** ** Volumes and history accessors *)

Definition V_T (c : OneDimPPMNuclide) : R := volume (geom_ c).

Definition V_f (c : OneDimPPMNuclide) : R := MatTools_V_f (V_T c) (porosity c).

(** Modelled from the spec: [NuclideModel::conc_hist(int)] is defined outside
    [OneDimPPMNuclide.cpp].  It reads the snapshot stored for the timestep; a
    timestep without snapshot reads as the empty map. *)
Definition conc_hist (c : OneDimPPMNuclide) (time : Z) : gmap Z double :=
  default ∅ (conc_hist_ c !! time).

(** ** The transport step *)

Section Transport.

(** [MatTools::sum_mats] and [MatTools::comp_to_conc_map] are defined outside
    [OneDimPPMNuclide.cpp], and nothing proved here depends on what they compute:
    the sum of the parcels as an isotope vector with its total mass, and its
    conversion to a concentration map over a volume. *)
Variable sum_mats : list (gmap Z R) -> gmap Z R * R.
Variable comp_to_conc_map : gmap Z R -> R -> R -> gmap Z double.

(** [OneDimPPMNuclide::update_vec_hist]. *)
Definition update_vec_hist (the_time : Z) (c : OneDimPPMNuclide) : OneDimPPMNuclide :=
  set_vec_hist (<[the_time := sum_mats (wastes_ c)]> (vec_hist_ c)) c.

(** [OneDimPPMNuclide::conc_profile]. *)
Definition conc_profile (c : OneDimPPMNuclide) (C_0 : gmap Z double) (r : R) (dt : Z)
    : gmap Z double :=
  map_fold
    (fun iso _ to_ret => <[iso := calculate_conc c C_0 C_0 r iso dt (dt + dt)]> to_ret)
    ∅ C_0.

(** [OneDimPPMNuclide::calculate_conc], the overload for a whole map. *)
Definition calculate_conc_map (c : OneDimPPMNuclide) (C_0 C_i : gmap Z double)
    (r : R) (t0 t : Z) : gmap Z double :=
  map_fold
    (fun iso _ to_ret => <[iso := calculate_conc c C_0 C_i r iso t0 t]> to_ret)
    ∅ C_0.

(** [OneDimPPMNuclide::update_conc_hist(the_time, mats)]. *)
Definition update_conc_hist (the_time : Z) (mats : list (gmap Z R))
    (c : OneDimPPMNuclide) : outcome OneDimPPMNuclide :=
  if decide (last_updated c <= the_time)%Z then
    let sum_pair := sum_mats mats in
    let C_0 := comp_to_conc_map (fst sum_pair) (snd sum_pair) (V_f c) in
    let r_calc := radial_midpoint (geom_ c) in
    let to_ret := conc_profile c C_0 r_calc the_time in
    let c := set_last_updated the_time c in
    Returns (set_conc_hist (<[the_time := to_ret]> (conc_hist_ c)) c)
  else AssertionFailed.

(** [OneDimPPMNuclide::update]. *)
Definition update (the_time : Z) (c : OneDimPPMNuclide) : outcome OneDimPPMNuclide :=
  let c := update_vec_hist the_time c in
  bind (update_conc_hist the_time (wastes_ c) c)
       (fun c => Returns (set_last_updated the_time c)).

(** [OneDimPPMNuclide::transportNuclides]. *)
Definition transportNuclides (the_time : Z) (c : OneDimPPMNuclide)
    : outcome OneDimPPMNuclide :=
  update the_time c.

End Transport.

(** ** Boundary conditions *)

(** [OneDimPPMNuclide::dirichlet_bc()]. *)
Definition dirichlet_bc (c : OneDimPPMNuclide) : gmap Z double :=
  conc_hist c (last_updated c).

(** Modelled from the spec: [NuclideModel::dirichlet_bc(Iso)] is defined outside
    [OneDimPPMNuclide.cpp].  It is the boundary concentration of one isotope. *)
Definition dirichlet_bc_iso (c : OneDimPPMNuclide) (iso : Z) : double :=
  at_iso (dirichlet_bc c) iso.

(** Modelled from the spec: [NuclideModel::calc_conc_grad] is defined outside
    [OneDimPPMNuclide.cpp].  It is the one-sided difference
    (c_ext - c_int)/(r_ext - r_int). *)
Definition calc_conc_grad (c_ext c_int : double) (r_ext r_int : R) : double :=
  ((c_ext - c_int) / (Num r_ext - Num r_int))%D.

(** [OneDimPPMNuclide::neumann_bc]. *)
Definition neumann_bc (c : OneDimPPMNuclide) (c_ext : gmap Z double) (r_ext : R)
    : gmap Z double :=
  let c_int := conc_hist c (last_updated c) in
  let r_int := radial_midpoint (geom c) in
  let to_ret :=
    map_fold
      (fun iso _ to_ret =>
         if has_iso c_ext iso then
           <[iso := calc_conc_grad (at_iso c_ext iso) (at_iso c_int iso) r_ext r_int]> to_ret
         else
           <[iso := calc_conc_grad (Num 0) (at_iso c_int iso) r_ext r_int]> to_ret)
      ∅ c_int in
  map_fold
    (fun iso _ to_ret =>
       if negb (has_iso c_int iso) then
         <[iso := calc_conc_grad (at_iso c_ext iso) (Num 0) r_ext r_int]> to_ret
       else to_ret)
    to_ret c_ext.

(** [std::map::insert]: the pair is stored unless the key is present. *)
Definition map_insert_pair (k : Z) (x : double) (m : gmap Z double) : gmap Z double :=
  match m !! k with
  | Some _ => m
  | None => <[k := x]> m
  end.

(** [OneDimPPMNuclide::cauchy_bc]. *)
Definition cauchy_bc (c : OneDimPPMNuclide) (c_ext : gmap Z double) (r_ext : R)
    : gmap Z double :=
  let neumann := neumann_bc c c_ext r_ext in
  map_fold
    (fun iso grad to_ret =>
       let elem := Z.quot iso 1000 in
       map_insert_pair iso
         (- Num (mat_table_D c elem) * grad + dirichlet_bc_iso c iso * Num (v c))%D
         to_ret)
    ∅ neumann.

(** [OneDimPPMNuclide::source_term_bc].  The [IsoVector] is given by the
    composition map it is built from. *)
Definition source_term_bc (c : OneDimPPMNuclide) : gmap Z double * double :=
  let conc_map := scaleConcMap (conc_hist c (last_updated c)) (Num (V_f c)) in
  map_fold
    (fun iso x '(comp_map, tot_mass) => (<[iso := x]> comp_map, (tot_mass + x)%D))
    (∅, Num 0) conc_map.

(** The sum of the values of a map. *)
Definition sum_values (m : gmap Z double) : double :=
  map_fold (fun _ x acc => (acc + x)%D) (Num 0) m.

(** ** The trapezoidal rule *)

(** [std::map<double, IsoConcMap>], as the list of its pairs in ascending
    order of the keys; keys are distinct.  [find] and [erase] compare keys
    for equality. *)
Fixpoint fmap_find (k : R) (fmap : list (R * gmap Z double)) : option (gmap Z double) :=
  match fmap with
  | [] => None
  | (k', m) :: fmap => if Req_dec_T k' k then Some m else fmap_find k fmap
  end.

Fixpoint fmap_erase (k : R) (fmap : list (R * gmap Z double)) : list (R * gmap Z double) :=
  match fmap with
  | [] => []
  | (k', m) :: fmap => if Req_dec_T k' k then fmap else (k', m) :: fmap_erase k fmap
  end.

(** Conversion of a [double] to the index type of a vector: truncation
    towards zero, undefined ([None]) when the truncated value is negative. *)
Definition size_t_of_double (x : R) : option nat :=
  if Rle_dec x (-1) then None
  else if Rlt_dec x 0 then Some 0%nat
  else Some (Z.to_nat (Int_part x)).

(** [terms[x] = m] on a [std::vector]: undefined ([None]) out of range. *)
Definition vector_assign (terms : list (gmap Z double)) (x : R) (m : gmap Z double)
    : option (list (gmap Z double)) :=
  match size_t_of_double x with
  | Some i => if decide (i < length terms)%nat then Some (<[i := m]> terms) else None
  | None => None
  end.

(** [OneDimPPMNuclide::trap_rule]; [None] is undefined behaviour. *)
Definition trap_rule (a b : R) (n : Z) (fmap : list (R * gmap Z double))
    : option (gmap Z double) :=
  let scalar := (Num (b - a) / of_int (2 * n))%D in
  let '(f_0, fmap) :=
    match fmap_find a fmap with
    | Some m => (m, fmap_erase a fmap)
    | None => (∅, fmap)
    end in
  let '(f_n, fmap) :=
    match fmap_find b fmap with
    | Some m => (m, fmap_erase b fmap)
    | None => (∅, fmap)
    end in
  let terms := [f_0; f_n] in
  let terms :=
    foldl
      (fun terms f =>
         match terms with
         | Some terms => vector_assign terms (fst f) (scaleConcMap (snd f) (Num 2 * scalar)%D)
         | None => None
         end)
      (Some terms) fmap in
  match terms with
  | Some terms => Some (foldl (fun prev t => addConcMaps prev t) ∅ terms)
  | None => None
  end.

(** ** The inventory ledger *)

Definition parcel_mass (p : gmap Z R) : R :=
  map_fold (fun _ m acc => m + acc) 0 p.

Definition ledger_mass (l : list (gmap Z R)) : R :=
  foldr (fun p acc => parcel_mass p + acc) 0 l.

Definition iso_mass (p : gmap Z R) (iso : Z) : R := default 0 (p !! iso).

Definition available (iso : Z) (l : list (gmap Z R)) : R :=
  foldr (fun p acc => iso_mass p iso + acc) 0 l.

#[global] Instance Rle_decision (x y : R) : Decision (x <= y) := Rle_dec x y.

Module MatTools.

(** Modelled from the spec: part of [MatTools::extract], defined outside
    [OneDimPPMNuclide.cpp].  The mass demanded of each isotope: the requested
    mass proportioned by the composition, a map of mass fractions. *)
Definition demanded (comp_to_rem : gmap Z R) (kg_to_rem : R) : gmap Z R :=
  (fun frac => kg_to_rem * frac) <$> comp_to_rem.

(** Modelled from the spec: part of [MatTools::extract].  The mass [d] of
    [iso] is removed oldest parcel first, the parcel at the boundary of the
    requested amount being split. *)
Fixpoint take_iso (iso : Z) (d : R) (mat_list : list (gmap Z R)) : list (gmap Z R) :=
  match mat_list with
  | [] => []
  | p :: rest =>
      if Rle_dec d (iso_mass p iso) then <[iso := iso_mass p iso - d]> p :: rest
      else <[iso := 0]> p :: take_iso iso (d - iso_mass p iso) rest
  end.

(** Modelled from the spec: part of [MatTools::extract].  No requested
    isotope has less mass available than demanded. *)
Definition sufficient (dem : gmap Z R) (mat_list : list (gmap Z R)) : bool :=
  bool_decide (map_Forall (fun iso d => d <= available iso mat_list) dem).

(** Modelled from the spec: [MatTools::extract(comp_to_rem, kg_to_rem,
    mat_list)] is defined outside [OneDimPPMNuclide.cpp].  It removes exactly
    the requested mass, proportioned by the composition, oldest parcel first,
    and returns the removed mass as a new parcel with the ledger left; it
    fails with InsufficientInventory ([None]), before anything is removed, if
    the available mass of a requested isotope is less than demanded. *)
Definition extract (comp_to_rem : gmap Z R) (kg_to_rem : R) (mat_list : list (gmap Z R))
    : option (gmap Z R * list (gmap Z R)) :=
  let dem := demanded comp_to_rem kg_to_rem in
  if sufficient dem mat_list then
    Some (dem, map_fold (fun iso d l => take_iso iso d l) mat_list dem)
  else None.

End MatTools.

Section Ledger.

Variable sum_mats : list (gmap Z R) -> gmap Z R * R.
Variable comp_to_conc_map : gmap Z R -> R -> R -> gmap Z double.

(** [OneDimPPMNuclide::absorb]. *)
Definition absorb (matToAdd : gmap Z R) (c : OneDimPPMNuclide) : OneDimPPMNuclide :=
  set_wastes (wastes_ c ++ [matToAdd]) c.

(** [OneDimPPMNuclide::extract]. *)
Definition extract (comp_to_rem : gmap Z R) (kg_to_rem : R) (c : OneDimPPMNuclide)
    : outcome (gmap Z R * OneDimPPMNuclide) :=
  match MatTools.extract comp_to_rem kg_to_rem (wastes_ c) with
  | Some (to_ret, wastes) =>
      let c := set_wastes wastes c in
      bind (update sum_mats comp_to_conc_map (last_updated c) c)
           (fun c => Returns (to_ret, c))
  | None => Throws InsufficientInventory
  end.

(** A history of calls on the ledger of a cell. *)
Inductive ledger_op : Type :=
  | Absorb (matToAdd : gmap Z R)
  | Extract (comp_to_rem : gmap Z R) (kg_to_rem : R).

(** The cell after the calls, with the mass absorbed and the mass extracted
    so far.  A call to [extract] that does not return leaves the cell as it
    was. *)
Fixpoint run (ops : list ledger_op) (c : OneDimPPMNuclide) (absorbed extracted : R)
    : OneDimPPMNuclide * R * R :=
  match ops with
  | [] => (c, absorbed, extracted)
  | Absorb p :: ops => run ops (absorb p c) (absorbed + parcel_mass p) extracted
  | Extract comp kg :: ops =>
      match extract comp kg c with
      | Returns (removed, c') => run ops c' absorbed (extracted + parcel_mass removed)
      | _ => run ops c absorbed extracted
      end
  end.

End Ledger.

(** Masses and mass fractions are not negative. *)
Definition parcel_wf (p : gmap Z R) : Prop := map_Forall (fun _ m => 0 <= m) p.

(** The mass fractions of a composition add up to one. *)
Definition normalised (comp : gmap Z R) : Prop := parcel_mass comp = 1.

Definition ledger_op_wf (op : ledger_op) : Prop :=
  match op with
  | Absorb p => parcel_wf p
  | Extract comp kg => parcel_wf comp /\ 0 <= kg
  end.

(** ** The solver as the specification words it *)

Module SolverSpec.
Section Formulas.

(** dispersion coefficient, velocity, retardation factor, radius, times *)
Variables (D v Rf r t0 t : R).

Definition At : R := 1/2 * erfc ((Rf * r - v * t) / (2 * sqrt (D * Rf * t))).
Definition Att0 : R := 1/2 * erfc ((Rf * r - v * t) / (2 * sqrt (D * Rf * (t - t0)))).
Definition A : R := At - Att0.
Definition B1 : R := 1/2 * erfc ((Rf * r - v * t) / (2 * sqrt (D * Rf * t))).
Definition B2 : R :=
  sqrt (v * v * t / (PI * Rf * D))
  * exp (- ((Rf * r - v * t) * (Rf * r - v * t)) / (4 * D * Rf * t)).
Definition B3 : R :=
  - (1/2) * (1 + v * r / D + v * v * t / (D * Rf)) * exp (v * r / D)
  * erfc ((Rf * r + v * t) / (2 * sqrt (D * Rf * t))).
Definition B (Ci : R) : R := Ci * (B1 + B2 + B3).
Definition C (C0 Ci : R) : R := C0 * A + B Ci.

End Formulas.
End SolverSpec.

(** ** The clock *)

(** Timesteps that do not decrease, from [t0] on. *)
Fixpoint nondecreasing_from (t0 : Z) (times : list Z) : Prop :=
  match times with
  | [] => True
  | t :: times => (t0 <= t)%Z /\ nondecreasing_from t times
  end.

(** Every snapshot of the two histories is dated no later than the last
    update. *)
Definition history_dated (c : OneDimPPMNuclide) : Prop :=
  map_Forall (fun k _ => (k <= last_updated c)%Z) (conc_hist_ c)
  /\ map_Forall (fun k _ => (k <= last_updated c)%Z) (vec_hist_ c).

Section Clock.

Variable sum_mats : list (gmap Z R) -> gmap Z R * R.
Variable comp_to_conc_map : gmap Z R -> R -> R -> gmap Z double.

(** The transport steps of a clock, one call of [transportNuclides] per
    timestep, in order. *)
Fixpoint transport_steps (times : list Z) (c : OneDimPPMNuclide)
    : outcome OneDimPPMNuclide :=
  match times with
  | [] => Returns c
  | t :: times =>
      bind (transportNuclides sum_mats comp_to_conc_map t c) (transport_steps times)
  end.

End Clock.

(** ** Setters, constructor and copy *)

#[global] Instance Rlt_decision (x y : R) : Decision (x < y) := Rlt_dec x y.

(** A setter that validates its argument stores it, or throws
    [CycRangeException]. *)
Inductive validated (A : Type) : Type :=
  | Stored (a : A)
  | CycRangeException.
Arguments Stored {A} a.
Arguments CycRangeException {A}.

(** Modelled from the spec: [MatTools::validate_percent] is defined outside
    [OneDimPPMNuclide.cpp].  It accepts the values from 0 to 1, inclusive, as
    the message of [set_porosity] words it. *)
Definition validate_percent (per : R) : bool := bool_decide (0 <= per /\ per <= 1).

(** Modelled from the spec: [MatTools::validate_finite_pos] is defined outside
    [OneDimPPMNuclide.cpp].  It accepts the positive values, as the message of
    [set_rho] words it. *)
Definition validate_finite_pos (pos : R) : bool := bool_decide (0 < pos).

Definition rho (c : OneDimPPMNuclide) : R := rho_ c.

(** [OneDimPPMNuclide::set_porosity]. *)
Definition set_porosity (porosity : R) (c : OneDimPPMNuclide) : validated OneDimPPMNuclide :=
  if validate_percent porosity then
    Stored (mkCell (v_ c) porosity (rho_ c) (Co_ c) (Ci_ c) (geom_ c) (last_updated_ c)
              (wastes_ c) (vec_hist_ c) (conc_hist_ c) (mat_table_D c))
  else CycRangeException.

(** [OneDimPPMNuclide::set_rho]. *)
Definition set_rho (rho : R) (c : OneDimPPMNuclide) : validated OneDimPPMNuclide :=
  if validate_finite_pos rho then
    Stored (mkCell (v_ c) (porosity_ c) rho (Co_ c) (Ci_ c) (geom_ c) (last_updated_ c)
              (wastes_ c) (vec_hist_ c) (conc_hist_ c) (mat_table_D c))
  else CycRangeException.

(** [OneDimPPMNuclide::set_v]. *)
Definition set_v (v : R) (c : OneDimPPMNuclide) : OneDimPPMNuclide :=
  mkCell v (porosity_ c) (rho_ c) (Co_ c) (Ci_ c) (geom_ c) (last_updated_ c)
         (wastes_ c) (vec_hist_ c) (conc_hist_ c) (mat_table_D c).

(** [NuclideModel::set_geom]. *)
Definition set_geom (g : Geometry) (c : OneDimPPMNuclide) : OneDimPPMNuclide :=
  mkCell (v_ c) (porosity_ c) (rho_ c) (Co_ c) (Ci_ c) g (last_updated_ c)
         (wastes_ c) (vec_hist_ c) (conc_hist_ c) (mat_table_D c).

(** [OneDimPPMNuclide::OneDimPPMNuclide()], on the geometry [Geometry()]
    builds and the material table of the base class. *)
Definition OneDimPPMNuclide_new (g : Geometry) (D : Z -> R) : OneDimPPMNuclide :=
  mkCell 0 0 0 ∅ ∅ g 0 [] ∅ ∅ D.

Section Copy.

Variable sum_mats : list (gmap Z R) -> gmap Z R * R.
(** [Geometry::copy(geom, centroid)], defined outside the file. *)
Variable Geometry_copy : Geometry -> Geometry.

(** [OneDimPPMNuclide::copy(src)] at the time [TI->time()] of the clock. *)
Definition copy (time : Z) (src c : OneDimPPMNuclide) : validated OneDimPPMNuclide :=
  let c := set_last_updated time c in
  match set_porosity (porosity src) c with
  | Stored c =>
      match set_rho (rho src) c with
      | Stored c =>
          let c := set_v (v src) c in
          let c := set_geom (Geometry_copy (geom src)) c in
          let c := set_wastes [] c in
          let c := set_vec_hist ∅ c in
          let c := set_conc_hist ∅ c in
          Stored (update_vec_hist sum_mats time c)
      | CycRangeException => CycRangeException
      end
  | CycRangeException => CycRangeException
  end.

End Copy.

(** ** Fixtures *)

(** A cell with the geometry and parameters of the test fixture: radii 4 and
    5, porosity 0.3, advective velocity 1; dispersion coefficient 1 for every
    element. *)
Definition fixture_geometry : Geometry := mkGeometry 4 5 (9/2) 45.

Definition fixture_cell : OneDimPPMNuclide :=
  mkCell 1 (3/10) 1 ∅ ∅ fixture_geometry 0 [] ∅ ∅ (fun _ => 1).

Definition u235 : Z := 92235.

(** Stand-ins for [MatTools::sum_mats] and [MatTools::comp_to_conc_map]: an
    empty sum, and one unit of U-235 per volume. *)
Definition fixture_sum_mats : list (gmap Z R) -> gmap Z R * R := fun _ => (∅, 0).

Definition fixture_comp_to_conc_map : gmap Z R -> R -> R -> gmap Z double :=
  fun _ _ _ => {[u235 := Num 1]}.

(** A cell whose snapshot at the last update holds one unit of U-235. *)
Definition loaded_cell : OneDimPPMNuclide :=
  set_conc_hist {[0%Z := {[u235 := Num 1]}]} fixture_cell.

(** The constant profile 1 sampled at the two radii 0 and 1. *)
Definition two_samples : list (R * gmap Z double) :=
  [(0, {[u235 := Num 1]}); (1, {[u235 := Num 1]})].

(** The constant profile 1 sampled at the three radii 0, 1 and 2, and at the
    four radii 0, 1, 2 and 3. *)
Definition three_samples : list (R * gmap Z double) :=
  [(0, {[u235 := Num 1]}); (1, {[u235 := Num 1]}); (2, {[u235 := Num 1]})].

Definition four_samples : list (R * gmap Z double) :=
  [(0, {[u235 := Num 1]}); (1, {[u235 := Num 1]}); (2, {[u235 := Num 1]});
   (3, {[u235 := Num 1]})].

(** A history on the fixture cell: 10 kg of U-235 absorbed, 4 kg extracted. *)
Definition fixture_history : list ledger_op :=
  [Absorb {[u235 := 10]}; Extract {[u235 := 1]} 4].

(** The fixture cell after the transport step of timestep 1, and after the
    steps of timesteps 1 and 2. *)
Definition stepped_cell : OneDimPPMNuclide :=
  match transportNuclides fixture_sum_mats fixture_comp_to_conc_map 1 fixture_cell with
  | Returns c => c
  | _ => fixture_cell
  end.

Definition clocked_cell : OneDimPPMNuclide :=
  match transport_steps fixture_sum_mats fixture_comp_to_conc_map [1; 2]%Z fixture_cell with
  | Returns c => c
  | _ => fixture_cell
  end.

(** The constant profile 1 sampled at the radii 4, 4.5 and 5 of the fixture
    geometry. *)
Definition fixture_samples : list (R * gmap Z double) :=
  [(4, {[u235 := Num 1]}); (9/2, {[u235 := Num 1]}); (5, {[u235 := Num 1]})].

(** * Properties *)

(** ** Arithmetic of [double] *)

Lemma dadd_Num x y : dadd (Num x) (Num y) = Num (x + y).
Proof. reflexivity. Qed.

Lemma dsub_Num x y : dsub (Num x) (Num y) = Num (x - y).
Proof. reflexivity. Qed.

Lemma dmul_Num x y : dmul (Num x) (Num y) = Num (x * y).
Proof. reflexivity. Qed.

Lemma dneg_Num x : dneg (Num x) = Num (- x).
Proof. reflexivity. Qed.

Lemma dexp_Num x : dexp (Num x) = Num (exp x).
Proof. reflexivity. Qed.

Lemma derfc_Num x : derfc (Num x) = Num (erfc x).
Proof. reflexivity. Qed.

Lemma pow_two_Num x : pow_two (Num x) = Num (x * x).
Proof. reflexivity. Qed.

Lemma ddiv_Num x y : y <> 0 -> ddiv (Num x) (Num y) = Num (x / y).
Proof. intros Hy. unfold ddiv. destruct (Req_dec_T y 0); [contradiction | reflexivity]. Qed.

Lemma ddiv_zero x : ddiv (Num x) (Num 0) = FPExc.
Proof. unfold ddiv. destruct (Req_dec_T 0 0); [reflexivity | contradiction]. Qed.

Lemma pow_half_Num x : 0 <= x -> pow_half (Num x) = Num (sqrt x).
Proof. intros Hx. unfold pow_half. destruct (Rlt_dec x 0); [lra | reflexivity]. Qed.

Lemma dadd_FPExc_r a : dadd a FPExc = FPExc.
Proof. destruct a; reflexivity. Qed.

Lemma dsub_FPExc_r a : dsub a FPExc = FPExc.
Proof. destruct a; reflexivity. Qed.

Lemma dmul_FPExc_r a : dmul a FPExc = FPExc.
Proof. destruct a; reflexivity. Qed.

Lemma ddiv_FPExc_r a : ddiv a FPExc = FPExc.
Proof. destruct a; reflexivity. Qed.

Lemma dadd_FPExc_l a : dadd FPExc a = FPExc.
Proof. reflexivity. Qed.

Create Rewrite HintDb dbl.
#[global] Hint Rewrite dadd_Num dsub_Num dmul_Num dneg_Num dexp_Num derfc_Num
  pow_two_Num : dbl.
#[global] Hint Rewrite dadd_FPExc_r dsub_FPExc_r dmul_FPExc_r ddiv_FPExc_r : dbl.

(** ** The solver: closed form and domain *)

(** C2.  With a positive dispersion coefficient and 0 < t0 < t the solver
    performs no exceptional operation and returns exactly C0*A + B, with A and
    B the closed forms of the specification at retardation 1. *)
Theorem calculate_conc_closed_form (c : OneDimPPMNuclide) (C_0 C_i : gmap Z double)
    (r : R) (iso t0 t : Z) (c0 ci : R) :
  0 < mat_table_D c (Z.quot iso 1000) ->
  0 <= r ->
  (0 < t0)%Z -> (t0 < t)%Z ->
  at_iso C_0 iso = Num c0 ->
  at_iso C_i iso = Num ci ->
  calculate_conc c C_0 C_i r iso t0 t =
    Num (SolverSpec.C (mat_table_D c (Z.quot iso 1000)) (v c) 1 r
           (IZR t0) (IZR t) c0 ci).
Proof.
  intros HD Hr Ht0 Ht HC0 HCi.
  unfold calculate_conc, of_int. rewrite HC0, HCi.
  set (D := mat_table_D c (Z.quot iso 1000)) in *.
  assert (Ht0' : 0 < IZR t0) by (apply IZR_lt; lia).
  assert (Htt : IZR t0 < IZR t) by (apply IZR_lt; lia).
  rewrite minus_IZR.
  assert (H1 : 0 < D * 1 * IZR t) by nra.
  assert (H2 : 0 < D * 1 * (IZR t - IZR t0)) by nra.
  assert (H3 : 2 * sqrt (D * 1 * IZR t) <> 0).
  { pose proof (sqrt_lt_R0 _ H1). lra. }
  assert (H4 : 2 * sqrt (D * 1 * (IZR t - IZR t0)) <> 0).
  { pose proof (sqrt_lt_R0 _ H2). lra. }
  assert (H5 : 4 * D * 1 * IZR t <> 0) by nra.
  pose proof PI_RGT_0 as Hpi.
  assert (H6 : PI * 1 * D <> 0) by nra.
  assert (H7 : 0 <= v c * v c * IZR t / (PI * 1 * D)).
  { apply Rmult_le_pos.
    - apply Rmult_le_pos; [apply Rle_0_sqr || nra | lra].
    - apply Rlt_le, Rinv_0_lt_compat. nra. }
  assert (H8 : D <> 0) by lra.
  assert (H9 : D * 1 <> 0) by lra.
  autorewrite with dbl.
  rewrite !pow_half_Num by lra.
  autorewrite with dbl.
  rewrite !ddiv_Num by assumption.
  autorewrite with dbl.
  rewrite pow_half_Num by assumption.
  autorewrite with dbl.
  reflexivity.
Qed.

Lemma calculate_conc_closed_form_witness :
  calculate_conc fixture_cell {[u235 := Num 1]} {[u235 := Num 1]} 1 u235 1 2 =
    Num (SolverSpec.C 1 1 1 1 (IZR 1) (IZR 2) 1 1).
Proof.
  apply (calculate_conc_closed_form fixture_cell {[u235 := Num 1]} {[u235 := Num 1]}
           1 u235 1 2 1 1).
  - simpl. lra.
  - lra.
  - lia.
  - lia.
  - reflexivity.
  - reflexivity.
Defined.

Lemma Att0_divisor_zero (D : R) (t : Z) :
  (Num 2 * pow_half (Num D * Num 1 * of_int (t - t)))%D = Num 0.
Proof.
  unfold of_int. rewrite Z.sub_diag. autorewrite with dbl.
  rewrite pow_half_Num by lra. autorewrite with dbl.
  replace (D * 1 * 0) with 0 by lra.
  rewrite sqrt_0. f_equal. lra.
Qed.

Lemma calculate_conc_diag (c : OneDimPPMNuclide) (C_0 C_i : gmap Z double)
    (r : R) (iso t : Z) :
  calculate_conc c C_0 C_i r iso t t = FPExc.
Proof.
  unfold calculate_conc. rewrite Att0_divisor_zero.
  destruct (Num 1 * Num r - Num (v c) * of_int t)%D as [x |] eqn:Hx.
  - rewrite ddiv_zero. cbn [derfc lift1]. autorewrite with dbl. reflexivity.
  - cbn [ddiv derfc lift1]. autorewrite with dbl. reflexivity.
Qed.

(** C3, as the code has it.  The solver has no guard for t = t0: the divisor
    2*pow(D*R*(t-t0), 0.5) of Att0_frac is then zero and the quotient is
    evaluated all the same, so the result is computed through a division by
    zero, for every input. *)
Theorem calculate_conc_t_eq_t0 (c : OneDimPPMNuclide) (C_0 C_i : gmap Z double)
    (r : R) (iso t : Z) :
  (Num 2 * pow_half (Num (mat_table_D c (Z.quot iso 1000)) * Num 1 * of_int (t - t)))%D
    = Num 0
  /\ calculate_conc c C_0 C_i r iso t t = FPExc.
Proof. split; [apply Att0_divisor_zero | apply calculate_conc_diag]. Qed.

(** At D = 1, v = 1, r = 1 and t = t0 = 1 the divisor of Att0_frac is zero,
    and the solver does not return the value of a computation free of
    divisions by zero. *)
Lemma calculate_conc_t_eq_t0_not_guarded :
  (Num 2 * pow_half (Num (mat_table_D fixture_cell (Z.quot u235 1000)) * Num 1
                     * of_int (1 - 1)))%D = Num 0
  /\ ~ is_num (calculate_conc fixture_cell {[u235 := Num 1]} {[u235 := Num 1]}
                 1 u235 1 1).
Proof.
  split; [apply (Att0_divisor_zero _ 1) |].
  intros [x Hx].
  pose proof (calculate_conc_diag fixture_cell {[u235 := Num 1]}
                {[u235 := Num 1]} 1 u235 1) as H.
  rewrite H in Hx. discriminate Hx.
Qed.

(** ** Loops over a map *)

(** A loop that stores [g i x] at key [i], or leaves the accumulator alone
    when [g i x] is [None], for every entry [(i, x)] of the map. *)
Lemma map_fold_lookup {A B : Type} (body : Z -> A -> gmap Z B -> gmap Z B)
    (g : Z -> A -> option B) :
  (forall i x acc k,
      body i x acc !! k =
        if decide (k = i) then from_option Some (acc !! i) (g i x) else acc !! k) ->
  forall (m : gmap Z A) (acc0 : gmap Z B) (k : Z),
    map_fold body acc0 m !! k =
      match m !! k with
      | Some x => from_option Some (acc0 !! k) (g k x)
      | None => acc0 !! k
      end.
Proof.
  intros Hbody m acc0.
  apply (map_fold_weak_ind
           (fun (r : gmap Z B) (m : gmap Z A) =>
              forall k, r !! k = match m !! k with
                                 | Some x => from_option Some (acc0 !! k) (g k x)
                                 | None => acc0 !! k
                                 end)).
  - intros k. rewrite lookup_empty. reflexivity.
  - intros i x m' r Hi IH k. rewrite Hbody.
    destruct (decide (k = i)) as [-> | Hne].
    + rewrite lookup_insert_eq. rewrite (IH i), Hi. reflexivity.
    + rewrite lookup_insert_ne by congruence. apply IH.
Qed.

Lemma map_fold_insert_lookup {A B : Type} (f : Z -> A -> B) (m : gmap Z A)
    (acc0 : gmap Z B) (k : Z) :
  map_fold (fun i x acc => <[i := f i x]> acc) acc0 m !! k =
    match m !! k with
    | Some x => Some (f k x)
    | None => acc0 !! k
    end.
Proof.
  rewrite (map_fold_lookup _ (fun i x => Some (f i x))).
  - destruct (m !! k); reflexivity.
  - intros i x acc j. destruct (decide (j = i)) as [-> | Hne].
    + rewrite lookup_insert_eq. reflexivity.
    + rewrite lookup_insert_ne by congruence. reflexivity.
Qed.

(** ** The transport step *)

Section TransportFacts.

Variable sum_mats : list (gmap Z R) -> gmap Z R * R.
Variable comp_to_conc_map : gmap Z R -> R -> R -> gmap Z double.

Lemma conc_profile_lookup (c : OneDimPPMNuclide) (C_0 : gmap Z double) (r : R)
    (dt iso : Z) :
  conc_profile c C_0 r dt !! iso =
    (fun _ => calculate_conc c C_0 C_0 r iso dt (dt + dt)) <$> (C_0 !! iso).
Proof.
  unfold conc_profile. rewrite map_fold_insert_lookup.
  destruct (C_0 !! iso); reflexivity.
Qed.

(** The callers do not guard the solver either: in the update path t0 = dt
    and t = dt + dt, so the step at time 0 calls the solver with t = t0. *)
Lemma conc_profile_at_zero (c : OneDimPPMNuclide) (C_0 : gmap Z double) (r : R)
    (iso : Z) (x : double) :
  C_0 !! iso = Some x -> conc_profile c C_0 r 0 !! iso = Some FPExc.
Proof.
  intros Hx. rewrite conc_profile_lookup, Hx. cbn [fmap option_fmap option_map].
  change (0 + 0)%Z with 0%Z. rewrite calculate_conc_diag. reflexivity.
Qed.

Lemma update_conc_hist_returns (the_time : Z) (mats : list (gmap Z R))
    (c : OneDimPPMNuclide) :
  (last_updated c <= the_time)%Z ->
  update_conc_hist sum_mats comp_to_conc_map the_time mats c =
    Returns
      (set_conc_hist
         (<[the_time :=
              conc_profile c
                (comp_to_conc_map (fst (sum_mats mats)) (snd (sum_mats mats)) (V_f c))
                (radial_midpoint (geom_ c)) the_time]> (conc_hist_ c))
         (set_last_updated the_time c)).
Proof.
  intros Hle. unfold update_conc_hist.
  destruct (decide (last_updated c <= the_time)%Z); [reflexivity | contradiction].
Qed.

Lemma update_conc_hist_fails (the_time : Z) (mats : list (gmap Z R))
    (c : OneDimPPMNuclide) :
  (the_time < last_updated c)%Z ->
  update_conc_hist sum_mats comp_to_conc_map the_time mats c = AssertionFailed.
Proof.
  intros Hlt. unfold update_conc_hist.
  destruct (decide (last_updated c <= the_time)%Z); [lia | reflexivity].
Qed.

Lemma update_returns (the_time : Z) (c : OneDimPPMNuclide) :
  (last_updated c <= the_time)%Z ->
  exists c',
    update sum_mats comp_to_conc_map the_time c = Returns c'
    /\ last_updated c' = the_time
    /\ wastes_ c' = wastes_ c.
Proof.
  intros Hle. unfold update.
  rewrite update_conc_hist_returns by exact Hle.
  eexists. split; [reflexivity |]. split; reflexivity.
Qed.

(** C4.  A transport step at a time before the last update stops on the
    failed assertion of [update_conc_hist]: no cell is returned, the time is
    not adjusted.  A transport step at a time from the last update on returns,
    and the returned cell was last updated at that time. *)
Theorem transportNuclides_precondition (the_time : Z) (c : OneDimPPMNuclide) :
  ((the_time < last_updated c)%Z ->
     transportNuclides sum_mats comp_to_conc_map the_time c = AssertionFailed)
  /\ ((last_updated c <= the_time)%Z ->
        exists c',
          transportNuclides sum_mats comp_to_conc_map the_time c = Returns c'
          /\ last_updated c' = the_time).
Proof.
  split.
  - intros Hlt. unfold transportNuclides, update.
    rewrite update_conc_hist_fails by exact Hlt. reflexivity.
  - intros Hle. destruct (update_returns the_time c Hle) as (c' & Hc' & Ht & _).
    exists c'. split; assumption.
Qed.

(** The snapshot stored by [update_conc_hist]. *)
Lemma update_conc_hist_snapshot (the_time : Z) (mats : list (gmap Z R))
    (c : OneDimPPMNuclide) :
  (last_updated c <= the_time)%Z ->
  exists c',
    update_conc_hist sum_mats comp_to_conc_map the_time mats c = Returns c'
    /\ conc_hist c' the_time =
         conc_profile c
           (comp_to_conc_map (fst (sum_mats mats)) (snd (sum_mats mats)) (V_f c))
           (radial_midpoint (geom_ c)) the_time.
Proof.
  intros Hle. eexists. split; [apply update_conc_hist_returns; exact Hle |].
  unfold conc_hist. cbn [conc_hist_ set_conc_hist].
  rewrite lookup_insert_eq. reflexivity.
Qed.

(** C10.  In a transport step at time t the snapshot stored for t holds, for
    every isotope of the concentration map derived from the ledger over the
    pore volume, the value of the solver called with that one map as both C_0
    and C_i, with t0 = t and t = t + t. *)
Theorem transportNuclides_solver_arguments (the_time : Z) (c : OneDimPPMNuclide) :
  (last_updated c <= the_time)%Z ->
  exists c',
    transportNuclides sum_mats comp_to_conc_map the_time c = Returns c'
    /\ forall iso,
        conc_hist c' the_time !! iso =
          (fun _ =>
             calculate_conc c
               (comp_to_conc_map (fst (sum_mats (wastes_ c))) (snd (sum_mats (wastes_ c)))
                  (volume (geom_ c) * porosity c))
               (comp_to_conc_map (fst (sum_mats (wastes_ c))) (snd (sum_mats (wastes_ c)))
                  (volume (geom_ c) * porosity c))
               (radial_midpoint (geom_ c)) iso the_time (the_time + the_time))
          <$> (comp_to_conc_map (fst (sum_mats (wastes_ c))) (snd (sum_mats (wastes_ c)))
                 (volume (geom_ c) * porosity c) !! iso).
Proof.
  intros Hle. unfold transportNuclides, update.
  destruct (update_conc_hist_snapshot the_time (wastes_ (update_vec_hist sum_mats the_time c))
              (update_vec_hist sum_mats the_time c) Hle) as (c' & Hc' & Hsnap).
  rewrite Hc'. cbn [bind]. eexists. split; [reflexivity |].
  intros iso.
  change (conc_hist (set_last_updated the_time c') the_time) with (conc_hist c' the_time).
  rewrite Hsnap, conc_profile_lookup. reflexivity.
Qed.

End TransportFacts.

Lemma transportNuclides_precondition_witness :
  transportNuclides fixture_sum_mats fixture_comp_to_conc_map (-1)
    (set_last_updated 2 fixture_cell) = AssertionFailed
  /\ exists c',
      transportNuclides fixture_sum_mats fixture_comp_to_conc_map 3
        (set_last_updated 2 fixture_cell) = Returns c'
      /\ last_updated c' = 3%Z.
Proof.
  split.
  - apply (transportNuclides_precondition fixture_sum_mats
             fixture_comp_to_conc_map (-1) (set_last_updated 2 fixture_cell)).
    simpl. lia.
  - apply (transportNuclides_precondition fixture_sum_mats
             fixture_comp_to_conc_map 3 (set_last_updated 2 fixture_cell)).
    simpl. lia.
Defined.

Lemma transportNuclides_solver_arguments_witness :
  exists c',
    transportNuclides fixture_sum_mats fixture_comp_to_conc_map 1 fixture_cell
      = Returns c'
    /\ forall iso,
        conc_hist c' 1 !! iso =
          (fun _ =>
             calculate_conc fixture_cell {[u235 := Num 1]} {[u235 := Num 1]}
               (9/2) iso 1 (1 + 1))
          <$> (({[u235 := Num 1]} : gmap Z double) !! iso).
Proof.
  apply (transportNuclides_solver_arguments fixture_sum_mats fixture_comp_to_conc_map
           1 fixture_cell).
  simpl. lia.
Defined.

(** ** Boundary conditions *)

Lemma dmul_comm (a b : double) : (a * b)%D = (b * a)%D.
Proof. destruct a, b; cbn; try reflexivity. f_equal. lra. Qed.

Lemma dadd_swap (a x y : double) : (a + x + y)%D = (a + y + x)%D.
Proof. destruct a, x, y; cbn; try reflexivity. f_equal. lra. Qed.

Lemma dmul_dadd_distr_r (a b s : double) : ((a + b) * s)%D = (a * s + b * s)%D.
Proof. destruct a, b, s; cbn; try reflexivity. f_equal. lra. Qed.

Lemma has_iso_true (m : gmap Z double) (iso : Z) (x : double) :
  m !! iso = Some x -> has_iso m iso = true.
Proof. intros H. unfold has_iso. apply bool_decide_eq_true. eauto. Qed.

Lemma has_iso_false (m : gmap Z double) (iso : Z) :
  m !! iso = None -> has_iso m iso = false.
Proof.
  intros H. unfold has_iso. apply bool_decide_eq_false.
  rewrite H. intros [x Hx]. discriminate Hx.
Qed.

Lemma at_iso_None (m : gmap Z double) (iso : Z) : m !! iso = None -> at_iso m iso = Num 0.
Proof. intros H. unfold at_iso. rewrite H. reflexivity. Qed.

(** The gradient map, key by key. *)
Lemma neumann_bc_lookup (c : OneDimPPMNuclide) (c_ext : gmap Z double) (r_ext : R)
    (iso : Z) :
  neumann_bc c c_ext r_ext !! iso =
    match conc_hist c (last_updated c) !! iso, c_ext !! iso with
    | None, None => None
    | _, _ =>
        Some (calc_conc_grad (at_iso c_ext iso) (at_iso (conc_hist c (last_updated c)) iso)
                r_ext (radial_midpoint (geom c)))
    end.
Proof.
  unfold neumann_bc.
  set (c_int := conc_hist c (last_updated c)).
  set (r_int := radial_midpoint (geom c)).
  rewrite (map_fold_lookup _
             (fun i (_ : double) =>
                if negb (has_iso c_int i)
                then Some (calc_conc_grad (at_iso c_ext i) (Num 0) r_ext r_int)
                else None)).
  2:{ intros i x acc k. destruct (negb (has_iso c_int i)); cbn [from_option].
      - destruct (decide (k = i)) as [-> | Hne].
        + apply lookup_insert_eq.
        + apply lookup_insert_ne. congruence.
      - destruct (decide (k = i)) as [-> | Hne]; reflexivity. }
  rewrite (map_fold_lookup _
             (fun i (_ : double) =>
                Some (if has_iso c_ext i
                      then calc_conc_grad (at_iso c_ext i) (at_iso c_int i) r_ext r_int
                      else calc_conc_grad (Num 0) (at_iso c_int i) r_ext r_int))).
  2:{ intros i x acc k. cbn [from_option].
      destruct (has_iso c_ext i); (destruct (decide (k = i)) as [-> | Hne];
        [apply lookup_insert_eq | apply lookup_insert_ne; congruence]). }
  rewrite lookup_empty.
  destruct (c_int !! iso) as [xi |] eqn:Hint, (c_ext !! iso) as [xe |] eqn:Hext;
    cbn [from_option].
  - rewrite (has_iso_true c_int iso xi Hint). cbn [negb from_option].
    rewrite (has_iso_true c_ext iso xe Hext). reflexivity.
  - rewrite (has_iso_false c_ext iso Hext), (at_iso_None c_ext iso Hext). reflexivity.
  - rewrite (has_iso_false c_int iso Hint), (at_iso_None c_int iso Hint). reflexivity.
  - reflexivity.
Qed.

(** C6.  The keys of the gradient map are the isotopes of the internal
    concentration united with those of the external one, and the gradient of
    each of them is the one-sided difference of the two concentrations, a
    concentration missing on one side counting as zero. *)
Theorem neumann_bc_union (c : OneDimPPMNuclide) (c_ext : gmap Z double) (r_ext : R) :
  dom (neumann_bc c c_ext r_ext) = dom (conc_hist c (last_updated c)) ∪ dom c_ext
  /\ forall iso,
      iso ∈ dom (conc_hist c (last_updated c)) ∪ dom c_ext ->
      neumann_bc c c_ext r_ext !! iso =
        Some (calc_conc_grad (default (Num 0) (c_ext !! iso))
                (default (Num 0) (conc_hist c (last_updated c) !! iso))
                r_ext (radial_midpoint (geom c))).
Proof.
  split.
  - apply set_eq. intros iso.
    rewrite elem_of_union, !elem_of_dom, neumann_bc_lookup.
    destruct (conc_hist c (last_updated c) !! iso), (c_ext !! iso);
      unfold is_Some; split; intros H; eauto.
    destruct H as [[x Hx] | [x Hx]]; discriminate.
  - intros iso Hin. rewrite neumann_bc_lookup.
    rewrite elem_of_union, !elem_of_dom in Hin. unfold at_iso.
    destruct (conc_hist c (last_updated c) !! iso), (c_ext !! iso); try reflexivity.
    destruct Hin as [[x Hx] | [x Hx]]; discriminate.
Qed.

Lemma neumann_bc_union_witness :
  neumann_bc fixture_cell {[u235 := Num 1]} 5 !! u235 =
    Some (calc_conc_grad (default (Num 0) (({[u235 := Num 1]} : gmap Z double) !! u235))
            (default (Num 0) (conc_hist fixture_cell (last_updated fixture_cell) !! u235))
            5 (radial_midpoint (geom fixture_cell))).
Proof.
  apply (neumann_bc_union fixture_cell {[u235 := Num 1]} 5).
  apply elem_of_union_r, elem_of_dom. exists (Num 1). reflexivity.
Defined.

Lemma calc_conc_grad_equal (x : R) (r_ext r_int : R) :
  r_ext <> r_int -> calc_conc_grad (Num x) (Num x) r_ext r_int = Num 0.
Proof.
  intros Hr. unfold calc_conc_grad. autorewrite with dbl.
  rewrite ddiv_Num by lra. f_equal. unfold Rdiv. rewrite Rminus_diag. lra.
Qed.

Lemma loaded_cell_snapshot :
  conc_hist loaded_cell (last_updated loaded_cell) = {[u235 := Num 1]}.
Proof. reflexivity. Qed.

Lemma cauchy_bc_lookup (c : OneDimPPMNuclide) (c_ext : gmap Z double) (r_ext : R)
    (iso : Z) :
  cauchy_bc c c_ext r_ext !! iso =
    (fun grad =>
       (- Num (mat_table_D c (Z.quot iso 1000)) * grad
        + dirichlet_bc_iso c iso * Num (v c))%D)
    <$> neumann_bc c c_ext r_ext !! iso.
Proof.
  unfold cauchy_bc. generalize (neumann_bc c c_ext r_ext) as neumann. intros neumann.
  revert iso.
  apply (map_fold_weak_ind
           (fun (r : gmap Z double) (m : gmap Z double) =>
              forall iso,
                r !! iso =
                  (fun grad =>
                     (- Num (mat_table_D c (Z.quot iso 1000)) * grad
                      + dirichlet_bc_iso c iso * Num (v c))%D) <$> m !! iso)).
  - intros iso. rewrite !lookup_empty. reflexivity.
  - intros i grad m r Hi IH iso. unfold map_insert_pair.
    pose proof (IH i) as Hri. rewrite Hi in Hri. cbn in Hri. rewrite Hri.
    destruct (decide (iso = i)) as [-> | Hne].
    + rewrite !lookup_insert_eq. reflexivity.
    + rewrite !lookup_insert_ne by congruence. apply IH.
Qed.

(** C8.  The flux map has the keys of the gradient map, and the flux of each
    isotope is -D(iso/1000)*gradient + v*dirichlet concentration. *)
Theorem cauchy_bc_flux (c : OneDimPPMNuclide) (c_ext : gmap Z double) (r_ext : R) :
  dom (cauchy_bc c c_ext r_ext) = dom (neumann_bc c c_ext r_ext)
  /\ forall iso grad,
      neumann_bc c c_ext r_ext !! iso = Some grad ->
      cauchy_bc c c_ext r_ext !! iso =
        Some (- Num (mat_table_D c (Z.quot iso 1000)) * grad
              + Num (v c) * at_iso (dirichlet_bc c) iso)%D.
Proof.
  split.
  - apply set_eq. intros iso. rewrite !elem_of_dom, cauchy_bc_lookup.
    destruct (neumann_bc c c_ext r_ext !! iso); cbn; unfold is_Some; split;
      intros [x Hx]; eauto; discriminate.
  - intros iso grad Hgrad. rewrite cauchy_bc_lookup, Hgrad.
    unfold dirichlet_bc_iso. rewrite (dmul_comm (Num (v c))). reflexivity.
Qed.

Lemma cauchy_bc_flux_witness :
  cauchy_bc loaded_cell {[u235 := Num 3]} 5 !! u235 =
    Some (- Num (mat_table_D loaded_cell (Z.quot u235 1000))
          * calc_conc_grad (Num 3) (Num 1) 5 (9/2)
          + Num (v loaded_cell) * at_iso (dirichlet_bc loaded_cell) u235)%D.
Proof.
  apply (cauchy_bc_flux loaded_cell {[u235 := Num 3]} 5).
  rewrite neumann_bc_lookup, loaded_cell_snapshot. reflexivity.
Defined.

(** ** The source term *)

Lemma sum_values_empty : sum_values ∅ = Num 0.
Proof. reflexivity. Qed.

Lemma sum_values_insert (m : gmap Z double) (i : Z) (x : double) :
  m !! i = None -> sum_values (<[i := x]> m) = (sum_values m + x)%D.
Proof.
  intros Hi. unfold sum_values.
  rewrite map_fold_insert_L; [reflexivity | | exact Hi].
  intros j1 j2 z1 z2 y _ _ _. apply dadd_swap.
Qed.

Lemma sum_values_scale (m : gmap Z double) (s : R) :
  sum_values ((fun x => (x * Num s)%D) <$> m) = (sum_values m * Num s)%D.
Proof.
  induction m as [| i x m Hi IH] using map_ind.
  - rewrite fmap_empty, sum_values_empty. cbn. f_equal. lra.
  - rewrite fmap_insert, !sum_values_insert, ?IH, ?dmul_dadd_distr_r; try reflexivity.
    + exact Hi.
    + rewrite lookup_fmap, Hi. reflexivity.
Qed.

Lemma source_term_loop (conc_map : gmap Z double) :
  map_fold
    (fun iso x '(comp_map, tot_mass) => (<[iso := x]> comp_map, (tot_mass + x)%D))
    (∅, Num 0) conc_map
  = (conc_map, sum_values conc_map).
Proof.
  apply (map_fold_weak_ind
           (fun (r : gmap Z double * double) (m : gmap Z double) =>
              r = (m, sum_values m))).
  - reflexivity.
  - intros i x m r Hi ->. rewrite sum_values_insert by exact Hi. reflexivity.
Qed.

(** C9.  The source term is the snapshot at the last update with every
    concentration multiplied by the pore volume, the total volume times the
    porosity, together with the total mass: the sum over the isotopes of
    concentration times pore volume. *)
Theorem source_term_bc_pore_volume (c : OneDimPPMNuclide) :
  (forall iso,
      fst (source_term_bc c) !! iso =
        (fun conc => (conc * Num (volume (geom_ c) * porosity c))%D)
        <$> conc_hist c (last_updated c) !! iso)
  /\ snd (source_term_bc c) =
       sum_values ((fun conc => (conc * Num (volume (geom_ c) * porosity c))%D)
                   <$> conc_hist c (last_updated c))
  /\ snd (source_term_bc c) =
       (sum_values (conc_hist c (last_updated c))
        * Num (volume (geom_ c) * porosity c))%D.
Proof.
  unfold source_term_bc. rewrite source_term_loop. cbn [fst snd].
  unfold scaleConcMap, V_f, V_T, MatTools_V_f.
  split; [| split].
  - intros iso. apply lookup_fmap.
  - reflexivity.
  - apply sum_values_scale.
Qed.

(** ** The trapezoidal rule *)

Ltac real_cases :=
  repeat match goal with
         | |- context [Req_dec_T ?x ?y] => destruct (Req_dec_T x y); try lra
         | |- context [Rle_dec ?x ?y] => destruct (Rle_dec x y); try lra
         | |- context [Rlt_dec ?x ?y] => destruct (Rlt_dec x y); try lra
         end.

Lemma Int_part_IZR (z : Z) : Int_part (IZR z) = z.
Proof.
  symmetry. apply Int_part_spec. split; lra.
Qed.

Lemma size_t_of_double_IZR (z : Z) :
  (0 <= z)%Z -> size_t_of_double (IZR z) = Some (Z.to_nat z).
Proof.
  intros Hz. unfold size_t_of_double.
  assert (0 <= IZR z) by (apply IZR_le; exact Hz).
  real_cases. rewrite Int_part_IZR. reflexivity.
Qed.

Lemma addConcMaps_empty_l (m : gmap Z double) : addConcMaps ∅ m = m.
Proof.
  apply map_eq. intros i. unfold addConcMaps.
  rewrite lookup_union_with, lookup_empty. destruct (m !! i); reflexivity.
Qed.

Lemma addConcMaps_singleton (i : Z) (x y : double) :
  addConcMaps {[i := x]} {[i := y]} = {[i := (x + y)%D]}.
Proof.
  apply map_eq. intros j. unfold addConcMaps. rewrite lookup_union_with.
  destruct (decide (j = i)) as [-> | Hne].
  - rewrite !lookup_singleton_eq. reflexivity.
  - rewrite !lookup_singleton_ne by congruence. reflexivity.
Qed.

Lemma scaleConcMap_singleton (i : Z) (x s : double) :
  scaleConcMap {[i := x]} s = {[i := (x * s)%D]}.
Proof. unfold scaleConcMap. rewrite map_fmap_singleton. reflexivity. Qed.

(** With the two endpoint samples alone no interior term is stored, and the
    endpoint terms are summed as they are. *)
Lemma trap_rule_endpoints (a b : R) (n : Z) (f_0 f_n : gmap Z double) :
  a <> b ->
  trap_rule a b n [(a, f_0); (b, f_n)] = Some (addConcMaps f_0 f_n).
Proof.
  intros Hab. unfold trap_rule. cbn [fmap_find fmap_erase].
  destruct (Req_dec_T a a) as [_ | Hne]; [| contradiction].
  cbn [fmap_find fmap_erase].
  destruct (Req_dec_T b b) as [_ | Hne]; [| contradiction].
  cbn [foldl]. rewrite addConcMaps_empty_l. reflexivity.
Qed.

(** C5, at the constant profile 1 sampled at the radii 0 and 1.  The rule
    returns 2 for U-235, not 1 * (1 - 0): the endpoint terms are summed
    without the factor (b-a)/(2n). *)
Theorem trap_rule_two_samples :
  trap_rule 0 1 2 two_samples = Some {[u235 := Num 2]}
  /\ Num 2 <> Num (1 * (1 - 0)).
Proof.
  split.
  - unfold two_samples. rewrite trap_rule_endpoints by lra.
    rewrite addConcMaps_singleton. autorewrite with dbl.
    replace (1 + 1) with 2 by lra. reflexivity.
  - intros [= H]. lra.
Qed.

(** With one interior sample, at radius 1, the interior term is stored at
    index 1 of the vector of terms, over the term of the outer endpoint: the
    rule returns 1 + 2/3 where the integral is 2. *)
Lemma trap_rule_three_samples :
  trap_rule 0 2 3 three_samples = Some {[u235 := Num (5/3)]}.
Proof.
  unfold trap_rule, three_samples. cbn [fmap_find fmap_erase].
  destruct (Req_dec_T 0 0) as [_ | Hne]; [| contradiction].
  cbn [fmap_find fmap_erase].
  destruct (Req_dec_T 1 2) as [Heq | _]; [lra |].
  destruct (Req_dec_T 2 2) as [_ | Hne]; [| contradiction].
  cbn [foldl fst snd]. unfold vector_assign.
  rewrite (size_t_of_double_IZR 1) by lia.
  change (Z.to_nat 1) with 1%nat. cbn [length].
  destruct (decide (1 < 2)%nat) as [_ | Hge]; [| lia].
  cbn [foldl]. change (<[1%nat := ?m]> [?x; ?y]) with [x; m].
  cbn [foldl]. rewrite addConcMaps_empty_l.
  unfold of_int. rewrite ddiv_Num by (apply not_0_IZR; lia).
  rewrite scaleConcMap_singleton, addConcMaps_singleton. autorewrite with dbl.
  change (IZR (2 * 3)) with 6.
  replace (1 + 1 * (2 * ((2 - 0) / 6))) with (5/3) by lra. reflexivity.
Qed.

(** With two interior samples the second one, at radius 2, is stored at index
    2 of a vector of two terms: the behaviour is undefined. *)
Lemma trap_rule_four_samples : trap_rule 0 3 4 four_samples = None.
Proof.
  unfold trap_rule, four_samples. cbn [fmap_find fmap_erase].
  destruct (Req_dec_T 0 0) as [_ | Hne]; [| contradiction].
  cbn [fmap_find fmap_erase].
  destruct (Req_dec_T 1 3) as [Heq | _]; [lra |].
  destruct (Req_dec_T 2 3) as [Heq | _]; [lra |].
  destruct (Req_dec_T 3 3) as [_ | Hne]; [| contradiction].
  cbn [foldl fst snd]. unfold vector_assign.
  rewrite (size_t_of_double_IZR 1) by lia.
  change (Z.to_nat 1) with 1%nat. cbn [length].
  destruct (decide (1 < 2)%nat) as [_ | Hge]; [| lia].
  rewrite length_insert. cbn [length].
  rewrite (size_t_of_double_IZR 2) by lia.
  change (Z.to_nat 2) with 2%nat.
  destruct (decide (2 < 2)%nat) as [Hlt | _]; [lia | reflexivity].
Qed.

(** ** The inventory ledger *)

Lemma parcel_mass_empty : parcel_mass ∅ = 0.
Proof. reflexivity. Qed.

Lemma parcel_mass_insert_fresh (p : gmap Z R) (i : Z) (x : R) :
  p !! i = None -> parcel_mass (<[i := x]> p) = x + parcel_mass p.
Proof.
  intros Hi. unfold parcel_mass.
  rewrite map_fold_insert_L; [reflexivity | | exact Hi].
  intros j1 j2 z1 z2 y _ _ _. lra.
Qed.

Lemma parcel_mass_delete (p : gmap Z R) (i : Z) :
  parcel_mass (delete i p) = parcel_mass p - iso_mass p i.
Proof.
  unfold iso_mass. destruct (p !! i) as [y |] eqn:Hi; simpl.
  - replace (parcel_mass p) with (parcel_mass (<[i := y]> (delete i p)))
      by (rewrite insert_delete_id by exact Hi; reflexivity).
    rewrite parcel_mass_insert_fresh by apply lookup_delete_eq. lra.
  - rewrite delete_id by exact Hi. lra.
Qed.

Lemma parcel_mass_insert (p : gmap Z R) (i : Z) (x : R) :
  parcel_mass (<[i := x]> p) = parcel_mass p - iso_mass p i + x.
Proof.
  rewrite <- insert_delete_eq.
  rewrite parcel_mass_insert_fresh by apply lookup_delete_eq.
  rewrite parcel_mass_delete. lra.
Qed.

Lemma parcel_mass_scale (p : gmap Z R) (k : R) :
  parcel_mass ((fun frac => k * frac) <$> p) = k * parcel_mass p.
Proof.
  induction p as [| i x p Hi IH] using map_ind.
  - rewrite fmap_empty, parcel_mass_empty. lra.
  - rewrite fmap_insert, !parcel_mass_insert_fresh, ?IH; [lra | exact Hi |].
    rewrite lookup_fmap, Hi. reflexivity.
Qed.

Lemma parcel_mass_nonneg (p : gmap Z R) : parcel_wf p -> 0 <= parcel_mass p.
Proof.
  unfold parcel_wf. induction p as [| i x p Hi IH] using map_ind; intros Hwf.
  - rewrite parcel_mass_empty. lra.
  - apply map_Forall_insert in Hwf as [Hx Hp]; [| exact Hi].
    rewrite parcel_mass_insert_fresh by exact Hi. specialize (IH Hp). lra.
Qed.

Lemma iso_mass_nonneg (p : gmap Z R) (i : Z) : parcel_wf p -> 0 <= iso_mass p i.
Proof.
  intros Hwf. unfold iso_mass. destruct (p !! i) as [y |] eqn:Hi; simpl.
  - exact (Hwf i y Hi).
  - lra.
Qed.

Lemma iso_mass_insert_eq (p : gmap Z R) (i : Z) (x : R) : iso_mass (<[i := x]> p) i = x.
Proof. unfold iso_mass. rewrite lookup_insert_eq. reflexivity. Qed.

Lemma iso_mass_insert_ne (p : gmap Z R) (i j : Z) (x : R) :
  i <> j -> iso_mass (<[i := x]> p) j = iso_mass p j.
Proof. intros Hne. unfold iso_mass. rewrite lookup_insert_ne by exact Hne. reflexivity. Qed.

Lemma parcel_wf_insert (p : gmap Z R) (i : Z) (x : R) :
  parcel_wf p -> 0 <= x -> parcel_wf (<[i := x]> p).
Proof. intros Hwf Hx. apply map_Forall_insert_2; assumption. Qed.

Lemma ledger_mass_nil : ledger_mass [] = 0.
Proof. reflexivity. Qed.

Lemma ledger_mass_cons (p : gmap Z R) (l : list (gmap Z R)) :
  ledger_mass (p :: l) = parcel_mass p + ledger_mass l.
Proof. reflexivity. Qed.

Lemma available_nil (i : Z) : available i [] = 0.
Proof. reflexivity. Qed.

Lemma available_cons (i : Z) (p : gmap Z R) (l : list (gmap Z R)) :
  available i (p :: l) = iso_mass p i + available i l.
Proof. reflexivity. Qed.

Lemma ledger_mass_nonneg (l : list (gmap Z R)) : Forall parcel_wf l -> 0 <= ledger_mass l.
Proof.
  induction 1 as [| p l Hp _ IH].
  - rewrite ledger_mass_nil. lra.
  - rewrite ledger_mass_cons. pose proof (parcel_mass_nonneg p Hp). lra.
Qed.

Lemma ledger_mass_push_back (l : list (gmap Z R)) (p : gmap Z R) :
  ledger_mass (l ++ [p]) = ledger_mass l + parcel_mass p.
Proof.
  induction l as [| q l IH].
  - cbn [app]. rewrite ledger_mass_cons, !ledger_mass_nil. lra.
  - cbn [app]. rewrite !ledger_mass_cons, IH. lra.
Qed.

(** Removing the mass [d] of one isotope, when [d] is available. *)
Lemma take_iso_spec (iso : Z) (l : list (gmap Z R)) :
  Forall parcel_wf l ->
  forall d, 0 <= d -> d <= available iso l ->
    ledger_mass (MatTools.take_iso iso d l) = ledger_mass l - d
    /\ Forall parcel_wf (MatTools.take_iso iso d l)
    /\ available iso (MatTools.take_iso iso d l) = available iso l - d
    /\ forall j, j <> iso ->
         available j (MatTools.take_iso iso d l) = available j l.
Proof.
  induction 1 as [| p l Hp Hl IH]; intros d Hd Hav; cbn [MatTools.take_iso].
  - rewrite available_nil in *. rewrite ledger_mass_nil.
    repeat split; [lra | constructor | lra].
  - pose proof (iso_mass_nonneg p iso Hp) as Hm.
    rewrite available_cons in Hav.
    destruct (Rle_dec d (iso_mass p iso)) as [Hle | Hgt].
    + rewrite !ledger_mass_cons, !available_cons.
      rewrite parcel_mass_insert, iso_mass_insert_eq.
      repeat split; [lra | | lra |].
      * constructor; [apply parcel_wf_insert; [exact Hp | lra] | exact Hl].
      * intros j Hj. rewrite !available_cons.
        rewrite iso_mass_insert_ne by congruence. reflexivity.
    + destruct (IH (d - iso_mass p iso)) as (Hmass & Hwf & Hiso & Hother); [lra | lra |].
      rewrite !ledger_mass_cons, !available_cons.
      rewrite parcel_mass_insert, iso_mass_insert_eq, Hmass, Hiso.
      repeat split; [lra | | lra |].
      * constructor; [apply parcel_wf_insert; [exact Hp | lra] | exact Hwf].
      * intros j Hj. rewrite !available_cons.
        rewrite iso_mass_insert_ne by congruence.
        rewrite Hother by exact Hj. reflexivity.
Qed.

(** Removing the demanded mass of every isotope, when it is available. *)
Lemma take_all_spec (l : list (gmap Z R)) (dem : gmap Z R) :
  Forall parcel_wf l ->
  map_Forall (fun iso d => 0 <= d /\ d <= available iso l) dem ->
  ledger_mass (map_fold (fun iso d l => MatTools.take_iso iso d l) l dem)
    = ledger_mass l - parcel_mass dem
  /\ Forall parcel_wf (map_fold (fun iso d l => MatTools.take_iso iso d l) l dem).
Proof.
  intros Hl.
  cut (map_Forall (fun iso d => 0 <= d /\ d <= available iso l) dem ->
       ledger_mass (map_fold (fun iso d l => MatTools.take_iso iso d l) l dem)
         = ledger_mass l - parcel_mass dem
       /\ Forall parcel_wf (map_fold (fun iso d l => MatTools.take_iso iso d l) l dem)
       /\ forall j, dem !! j = None ->
            available j (map_fold (fun iso d l => MatTools.take_iso iso d l) l dem)
              = available j l).
  { intros H Hdem. destruct (H Hdem) as (H1 & H2 & _). split; assumption. }
  apply (map_fold_weak_ind
           (fun (r : list (gmap Z R)) (m : gmap Z R) =>
              map_Forall (fun iso d => 0 <= d /\ d <= available iso l) m ->
              ledger_mass r = ledger_mass l - parcel_mass m
              /\ Forall parcel_wf r
              /\ forall j, m !! j = None -> available j r = available j l)).
  - intros _. rewrite parcel_mass_empty. repeat split; [lra | exact Hl].
  - intros i d m r Hi IH Hdem.
    apply map_Forall_insert in Hdem as [[Hd Hav] Hm]; [| exact Hi].
    destruct (IH Hm) as (Hmass & Hwf & Hother).
    destruct (take_iso_spec i r Hwf d Hd) as (Hmass' & Hwf' & _ & Hother').
    { rewrite Hother by exact Hi. exact Hav. }
    rewrite parcel_mass_insert_fresh by exact Hi.
    repeat split; [lra | exact Hwf' |].
    intros j Hj. apply lookup_insert_None in Hj as [Hj Hne].
    rewrite Hother' by congruence. apply Hother. exact Hj.
Qed.

(** [MatTools::extract] takes from the ledger the mass of the parcel it
    returns, and leaves no negative mass behind. *)
Lemma MatTools_extract_conserves (comp : gmap Z R) (kg : R) (l : list (gmap Z R))
    (removed : gmap Z R) (l' : list (gmap Z R)) :
  Forall parcel_wf l -> parcel_wf comp -> 0 <= kg ->
  MatTools.extract comp kg l = Some (removed, l') ->
  ledger_mass l' = ledger_mass l - parcel_mass removed
  /\ Forall parcel_wf l'.
Proof.
  intros Hl Hfrac Hkg. unfold MatTools.extract.
  destruct (MatTools.sufficient (MatTools.demanded comp kg) l) eqn:Hsuf; [| discriminate].
  intros [= <- <-].
  apply (take_all_spec l (MatTools.demanded comp kg) Hl).
  unfold MatTools.sufficient in Hsuf. apply bool_decide_eq_true in Hsuf.
  intros i d Hi. split; [| exact (Hsuf i d Hi)].
  unfold MatTools.demanded in Hi. rewrite lookup_fmap in Hi.
  destruct (comp !! i) as [frac |] eqn:Hc; [| discriminate].
  injection Hi as <-. apply Rmult_le_pos; [exact Hkg | exact (Hfrac i frac Hc)].
Qed.

(** The parcel returned for a normalised composition has the requested
    mass. *)
Lemma MatTools_extract_exact (comp : gmap Z R) (kg : R) (l : list (gmap Z R))
    (removed : gmap Z R) (l' : list (gmap Z R)) :
  normalised comp ->
  MatTools.extract comp kg l = Some (removed, l') ->
  parcel_mass removed = kg.
Proof.
  intros Hone. unfold MatTools.extract.
  destruct (MatTools.sufficient (MatTools.demanded comp kg) l); [| discriminate].
  intros [= <- _]. unfold MatTools.demanded.
  rewrite parcel_mass_scale, Hone. lra.
Qed.

Section LedgerFacts.

Variable sum_mats : list (gmap Z R) -> gmap Z R * R.
Variable comp_to_conc_map : gmap Z R -> R -> R -> gmap Z double.

Lemma extract_returns (comp : gmap Z R) (kg : R) (c : OneDimPPMNuclide)
    (removed : gmap Z R) (c' : OneDimPPMNuclide) :
  extract sum_mats comp_to_conc_map comp kg c = Returns (removed, c') ->
  MatTools.extract comp kg (wastes_ c) = Some (removed, wastes_ c').
Proof.
  unfold extract.
  destruct (MatTools.extract comp kg (wastes_ c)) as [[to_ret wastes] |]; [| discriminate].
  destruct (update_returns sum_mats comp_to_conc_map
              (last_updated (set_wastes wastes c)) (set_wastes wastes c))
    as (c2 & Hc2 & _ & Hw); [lia |].
  rewrite Hc2. cbn [bind]. intros [= <- <-]. rewrite Hw. reflexivity.
Qed.

(** The ledger of a cell along a history of calls. *)
Lemma run_conserves (ops : list ledger_op) :
  Forall ledger_op_wf ops ->
  forall (c : OneDimPPMNuclide) (ab ex : R),
    Forall parcel_wf (wastes_ c) ->
    ledger_mass (wastes_ (fst (fst (run sum_mats comp_to_conc_map ops c ab ex))))
      - ledger_mass (wastes_ c)
    = (snd (fst (run sum_mats comp_to_conc_map ops c ab ex)) - ab)
      - (snd (run sum_mats comp_to_conc_map ops c ab ex) - ex)
    /\ Forall parcel_wf (wastes_ (fst (fst (run sum_mats comp_to_conc_map ops c ab ex)))).
Proof.
  induction 1 as [| op ops Hop _ IH]; intros c ab ex Hc.
  - cbn [run fst snd]. split; [lra | exact Hc].
  - destruct op as [p | comp kg]; cbn [run].
    + destruct (IH (absorb p c) (ab + parcel_mass p) ex) as [Hmass Hwf].
      { cbn. apply Forall_app. split; [exact Hc |]. constructor; [exact Hop | constructor]. }
      split; [| exact Hwf].
      cbn [absorb wastes_ set_wastes] in Hmass.
      rewrite ledger_mass_push_back in Hmass. lra.
    + destruct Hop as [Hcomp Hkg].
      destruct (extract sum_mats comp_to_conc_map comp kg c)
        as [[removed c'] | | e] eqn:Hext; try (apply IH; exact Hc).
      apply extract_returns in Hext.
      destruct (MatTools_extract_conserves comp kg (wastes_ c) removed (wastes_ c')
                  Hc Hcomp Hkg Hext) as (Hmass & Hwf).
      destruct (IH c' ab (ex + parcel_mass removed) Hwf) as [Hmass' Hwf'].
      split; [| exact Hwf']. lra.
Qed.

(** C1.  Starting from an empty ledger, after every history of absorb and
    extract calls the mass held in the ledger is the mass absorbed minus the
    mass extracted, and it is not negative. *)
Theorem ledger_mass_conservation (ops : list ledger_op) (c : OneDimPPMNuclide) :
  wastes_ c = [] ->
  Forall ledger_op_wf ops ->
  ledger_mass (wastes_ (fst (fst (run sum_mats comp_to_conc_map ops c 0 0))))
    = snd (fst (run sum_mats comp_to_conc_map ops c 0 0))
      - snd (run sum_mats comp_to_conc_map ops c 0 0)
  /\ 0 <= ledger_mass (wastes_ (fst (fst (run sum_mats comp_to_conc_map ops c 0 0)))).
Proof.
  intros Hempty Hops.
  destruct (run_conserves ops Hops c 0 0) as [Hmass Hwf].
  { rewrite Hempty. constructor. }
  rewrite Hempty in Hmass. rewrite ledger_mass_nil in Hmass.
  split; [lra | apply ledger_mass_nonneg; exact Hwf].
Qed.

End LedgerFacts.

Lemma parcel_mass_singleton (i : Z) (x : R) : parcel_mass {[i := x]} = x.
Proof.
  rewrite <- insert_empty, parcel_mass_insert_fresh by apply lookup_empty.
  rewrite parcel_mass_empty. lra.
Qed.

Lemma fixture_history_wf : Forall ledger_op_wf fixture_history.
Proof.
  unfold fixture_history. apply Forall_cons. split.
  - apply map_Forall_singleton. lra.
  - apply Forall_cons. split; [| apply Forall_nil; exact I].
    split.
    + apply map_Forall_singleton. lra.
    + lra.
Qed.

Lemma ledger_mass_conservation_witness :
  ledger_mass
    (wastes_ (fst (fst (run fixture_sum_mats fixture_comp_to_conc_map fixture_history
                          fixture_cell 0 0))))
    = snd (fst (run fixture_sum_mats fixture_comp_to_conc_map fixture_history fixture_cell 0 0))
      - snd (run fixture_sum_mats fixture_comp_to_conc_map fixture_history fixture_cell 0 0)
  /\ 0 <= ledger_mass
            (wastes_ (fst (fst (run fixture_sum_mats fixture_comp_to_conc_map fixture_history
                                  fixture_cell 0 0)))).
Proof.
  apply (ledger_mass_conservation fixture_sum_mats fixture_comp_to_conc_map
           fixture_history fixture_cell).
  - reflexivity.
  - exact fixture_history_wf.
Defined.

(** The extraction of the history succeeds and leaves 6 kg; a request for
    more than the ledger holds fails. *)
Lemma MatTools_extract_some :
  exists removed l',
    MatTools.extract {[u235 := 1]} 4 [{[u235 := 10]}] = Some (removed, l')
    /\ parcel_mass removed = 4
    /\ ledger_mass l' = 6.
Proof.
  unfold MatTools.extract.
  assert (Hsuf : MatTools.sufficient (MatTools.demanded {[u235 := 1]} 4) [{[u235 := 10]}]
                 = true).
  { apply bool_decide_eq_true. unfold MatTools.demanded.
    rewrite map_fmap_singleton. apply map_Forall_singleton.
    rewrite available_cons, available_nil. unfold iso_mass.
    rewrite lookup_singleton_eq. simpl. lra. }
  rewrite Hsuf. eexists _, _. split; [reflexivity |].
  unfold MatTools.demanded. rewrite map_fmap_singleton, parcel_mass_singleton.
  split; [lra |].
  rewrite map_fold_singleton.
  cbn [MatTools.take_iso]. unfold iso_mass. rewrite lookup_singleton_eq. simpl.
  destruct (Rle_dec (4 * 1) 10) as [_ | Hgt]; [| lra].
  rewrite ledger_mass_cons, ledger_mass_nil, insert_singleton_eq, parcel_mass_singleton.
  lra.
Qed.

Lemma MatTools_extract_insufficient :
  MatTools.extract {[u235 := 1]} 11 [{[u235 := 10]}] = None.
Proof.
  unfold MatTools.extract.
  assert (Hsuf : MatTools.sufficient (MatTools.demanded {[u235 := 1]} 11) [{[u235 := 10]}]
                 = false).
  { apply bool_decide_eq_false. unfold MatTools.demanded.
    rewrite map_fmap_singleton, map_Forall_singleton.
    rewrite available_cons, available_nil. unfold iso_mass.
    rewrite lookup_singleton_eq. simpl. lra. }
  rewrite Hsuf. reflexivity.
Qed.
(** ** The error function decreases *)

Lemma gauss_pos (u : R) : 0 < gauss u.
Proof. unfold gauss. apply exp_pos. Qed.

Lemma gauss_integral_chasles (x y : R) :
  RiemannInt (gauss_integrable 0 y) - RiemannInt (gauss_integrable 0 x)
    = RiemannInt (gauss_integrable x y).
Proof.
  rewrite <- (RiemannInt_P26 (gauss_integrable 0 x) (gauss_integrable x y)
                (gauss_integrable 0 y)).
  lra.
Qed.

(** On an interval the integrand stays above its value at the larger of the
    two ends in absolute value. *)
Lemma gauss_lower_bound (x y u : R) :
  x < u < y -> gauss (Rmax (Rabs x) (Rabs y)) <= gauss u.
Proof.
  intros [Hx Hy]. unfold gauss.
  set (M := Rmax (Rabs x) (Rabs y)).
  assert (HM : Rabs u <= M).
  { unfold M. unfold Rabs. destruct (Rcase_abs u), (Rcase_abs x), (Rcase_abs y);
      (eapply Rle_trans; [| apply Rmax_l] ; lra) || (eapply Rle_trans; [| apply Rmax_r]; lra). }
  assert (Hsq : u * u <= M * M).
  { pose proof (Rabs_pos u). replace (u * u) with (Rabs u * Rabs u).
    - apply Rmult_le_compat; assumption.
    - unfold Rabs. destruct (Rcase_abs u); lra. }
  destruct (Req_dec (u * u) (M * M)) as [-> | Hne]; [lra |].
  left. apply exp_increasing. lra.
Qed.

Lemma gauss_integral_pos (x y : R) : x < y -> 0 < RiemannInt (gauss_integrable x y).
Proof.
  intros Hxy.
  set (m := gauss (Rmax (Rabs x) (Rabs y))).
  assert (Hm : 0 < m) by apply gauss_pos.
  pose proof (RiemannInt_P19 (RiemannInt_P14 x y m) (gauss_integrable x y)
                (Rlt_le _ _ Hxy)) as Hle.
  rewrite RiemannInt_P15 in Hle.
  assert (0 < m * (y - x)) by nra.
  eapply Rlt_le_trans; [eassumption |]. apply Hle.
  intros u Hu. unfold fct_cte. apply gauss_lower_bound. exact Hu.
Qed.

Lemma erfc_decreasing (x y : R) : x < y -> erfc y < erfc x.
Proof.
  intros Hxy. unfold erfc, erf.
  pose proof (gauss_integral_pos x y Hxy) as Hpos.
  pose proof (gauss_integral_chasles x y) as Hch.
  assert (Hc : 0 < 2 / sqrt PI).
  { apply Rdiv_lt_0_compat; [lra | apply sqrt_lt_R0, PI_RGT_0]. }
  nra.
Qed.

(** ** The domain of the solver *)

Lemma calculate_conc_value (c : OneDimPPMNuclide) (C_0 C_i : gmap Z double)
    (r : R) (iso t0 t : Z) (c0 ci : R) :
  0 < mat_table_D c (Z.quot iso 1000) * IZR t ->
  0 < mat_table_D c (Z.quot iso 1000) * IZR (t - t0) ->
  at_iso C_0 iso = Num c0 ->
  at_iso C_i iso = Num ci ->
  calculate_conc c C_0 C_i r iso t0 t =
    Num (SolverSpec.C (mat_table_D c (Z.quot iso 1000)) (v c) 1 r
           (IZR t0) (IZR t) c0 ci).
Proof.
  intros Ht Htt HC0 HCi.
  unfold calculate_conc, of_int. rewrite HC0, HCi.
  set (D := mat_table_D c (Z.quot iso 1000)) in *.
  rewrite minus_IZR in *.
  assert (HD : D <> 0) by nra.
  assert (H1 : 0 <= D * 1 * IZR t) by lra.
  assert (H2 : 0 <= D * 1 * (IZR t - IZR t0)) by lra.
  assert (H3 : 2 * sqrt (D * 1 * IZR t) <> 0).
  { assert (0 < sqrt (D * 1 * IZR t)) by (apply sqrt_lt_R0; lra). lra. }
  assert (H4 : 2 * sqrt (D * 1 * (IZR t - IZR t0)) <> 0).
  { assert (0 < sqrt (D * 1 * (IZR t - IZR t0))) by (apply sqrt_lt_R0; lra). lra. }
  assert (H5 : 4 * D * 1 * IZR t <> 0) by lra.
  pose proof PI_RGT_0 as Hpi.
  assert (H6 : PI * 1 * D <> 0) by nra.
  assert (H7 : 0 <= v c * v c * IZR t / (PI * 1 * D)).
  { replace (v c * v c * IZR t / (PI * 1 * D))
      with (v c * v c * (D * IZR t) * / (PI * (D * D))) by (field; lra).
    apply Rmult_le_pos.
    - apply Rmult_le_pos; [apply Rle_0_sqr | lra].
    - apply Rlt_le, Rinv_0_lt_compat. nra. }
  assert (H9 : D * 1 <> 0) by lra.
  autorewrite with dbl.
  rewrite !pow_half_Num by assumption.
  autorewrite with dbl.
  rewrite !ddiv_Num by assumption.
  autorewrite with dbl.
  rewrite pow_half_Num by assumption.
  autorewrite with dbl.
  reflexivity.
Qed.

Lemma dadd_is_num (a b : double) : is_num (a + b)%D -> is_num a /\ is_num b.
Proof. destruct a, b; intros [z Hz]; try discriminate Hz; split; eexists; reflexivity. Qed.

Lemma dsub_is_num (a b : double) : is_num (a - b)%D -> is_num a /\ is_num b.
Proof. destruct a, b; intros [z Hz]; try discriminate Hz; split; eexists; reflexivity. Qed.

Lemma dmul_is_num (a b : double) : is_num (a * b)%D -> is_num a /\ is_num b.
Proof. destruct a, b; intros [z Hz]; try discriminate Hz; split; eexists; reflexivity. Qed.

Lemma derfc_is_num (a : double) : is_num (derfc a) -> is_num a.
Proof. destruct a; intros [z Hz]; try discriminate Hz. eexists; reflexivity. Qed.

Lemma ddiv_is_num (a b : double) :
  is_num (a / b)%D -> is_num a /\ exists y, b = Num y /\ y <> 0.
Proof.
  destruct a as [x |], b as [y |]; intros [z Hz]; try discriminate Hz.
  unfold ddiv in Hz. destruct (Req_dec_T y 0) as [Hy | Hy]; [discriminate Hz |].
  split; [eexists; reflexivity | exists y; split; [reflexivity | exact Hy]].
Qed.

(** The divisor 2*pow(x, 0.5) is a number other than zero only for x > 0. *)
Lemma half_power_divisor (x y : R) :
  (Num 2 * pow_half (Num x))%D = Num y -> y <> 0 -> 0 < x.
Proof.
  unfold pow_half. destruct (Rlt_dec x 0) as [Hneg | Hpos]; [discriminate |].
  autorewrite with dbl. intros [= <-] Hy.
  destruct (Req_dec x 0) as [-> | Hx]; [| lra].
  rewrite sqrt_0 in Hy. lra.
Qed.

(** X9.  The solver returns a number free of exceptional operations exactly when
    both concentrations are such numbers and D*t and D*(t-t0) are positive. *)
Theorem calculate_conc_is_num_iff (c : OneDimPPMNuclide) (C_0 C_i : gmap Z double)
    (r : R) (iso t0 t : Z) :
  is_num (calculate_conc c C_0 C_i r iso t0 t) <->
  is_num (at_iso C_0 iso) /\ is_num (at_iso C_i iso)
  /\ 0 < mat_table_D c (Z.quot iso 1000) * IZR t
  /\ 0 < mat_table_D c (Z.quot iso 1000) * IZR (t - t0).
Proof.
  split.
  - unfold calculate_conc, of_int. intros H.
    apply dadd_is_num in H as [HA HB].
    apply dmul_is_num in HA as [HC0 HA].
    apply dmul_is_num in HB as [HCi _].
    apply dsub_is_num in HA as [HAt HAtt0].
    apply dmul_is_num in HAt as [_ HAt]. apply derfc_is_num in HAt.
    apply ddiv_is_num in HAt as [_ (y & Hy & Hy0)].
    apply dmul_is_num in HAtt0 as [_ HAtt0]. apply derfc_is_num in HAtt0.
    apply ddiv_is_num in HAtt0 as [_ (z & Hz & Hz0)].
    autorewrite with dbl in Hy, Hz.
    apply half_power_divisor in Hy; [| exact Hy0].
    apply half_power_divisor in Hz; [| exact Hz0].
    repeat split; [exact HC0 | exact HCi | lra | lra].
  - intros ([c0 HC0] & [ci HCi] & Ht & Htt).
    eexists. apply (calculate_conc_value c C_0 C_i r iso t0 t c0 ci); assumption.
Qed.

(** ** The sign of the result *)

Lemma pulse_term_sign (D vel r t0 t : R) :
  0 < D -> 0 < t0 -> t0 < t ->
  (r < vel * t -> SolverSpec.A D vel 1 r t0 t < 0)
  /\ (vel * t < r -> 0 < SolverSpec.A D vel 1 r t0 t)
  /\ (r = vel * t -> SolverSpec.A D vel 1 r t0 t = 0).
Proof.
  intros HD Ht0 Ht. unfold SolverSpec.A, SolverSpec.At, SolverSpec.Att0.
  set (x := 1 * r - vel * t).
  assert (Hs2 : 0 < sqrt (D * 1 * (t - t0))) by (apply sqrt_lt_R0; nra).
  assert (Hs12 : sqrt (D * 1 * (t - t0)) < sqrt (D * 1 * t)).
  { apply sqrt_lt_1_alt. nra. }
  set (s1 := sqrt (D * 1 * t)) in *. set (s2 := sqrt (D * 1 * (t - t0))) in *.
  assert (Hdiff : x / (2 * s1) - x / (2 * s2) = x * ((s2 - s1) / (2 * s1 * s2))).
  { field. lra. }
  assert (Hq : (s2 - s1) / (2 * s1 * s2) < 0).
  { assert (0 < / (2 * s1 * s2)) by (apply Rinv_0_lt_compat; nra).
    unfold Rdiv. nra. }
  split; [| split].
  - intros Hr. assert (Hx : x < 0) by (unfold x; lra).
    assert (x / (2 * s2) < x / (2 * s1)) by nra.
    pose proof (erfc_decreasing _ _ H). lra.
  - intros Hr. assert (Hx : 0 < x) by (unfold x; lra).
    assert (x / (2 * s1) < x / (2 * s2)) by nra.
    pose proof (erfc_decreasing _ _ H). lra.
  - intros Hr. assert (Hx : x = 0) by (unfold x; lra).
    rewrite Hx. unfold Rdiv. rewrite !Rmult_0_l. lra.
Qed.

(** X10.  With no initial concentration of the isotope the result is C0 * A,
    and for a boundary concentration that is not negative it is not positive
    behind the advective front, r <= v*t, and not negative ahead of it,
    v*t <= r. *)
Theorem calculate_conc_sign (c : OneDimPPMNuclide) (C_0 C_i : gmap Z double)
    (r : R) (iso t0 t : Z) (c0 : R) :
  0 < mat_table_D c (Z.quot iso 1000) ->
  (0 < t0)%Z -> (t0 < t)%Z ->
  at_iso C_0 iso = Num c0 -> 0 <= c0 ->
  at_iso C_i iso = Num 0 ->
  calculate_conc c C_0 C_i r iso t0 t =
    Num (c0 * SolverSpec.A (mat_table_D c (Z.quot iso 1000)) (v c) 1 r (IZR t0) (IZR t))
  /\ (r <= v c * IZR t ->
        c0 * SolverSpec.A (mat_table_D c (Z.quot iso 1000)) (v c) 1 r (IZR t0) (IZR t)
          <= 0)
  /\ (v c * IZR t <= r ->
        0 <= c0 * SolverSpec.A (mat_table_D c (Z.quot iso 1000)) (v c) 1 r
                    (IZR t0) (IZR t)).
Proof.
  intros HD Ht0 Ht HC0 Hc0 HCi.
  assert (Ht0' : 0 < IZR t0) by (apply IZR_lt; lia).
  assert (Htt : IZR t0 < IZR t) by (apply IZR_lt; lia).
  split.
  - rewrite (calculate_conc_value c C_0 C_i r iso t0 t c0 0); try assumption.
    + f_equal. unfold SolverSpec.C, SolverSpec.B. lra.
    + nra.
    + rewrite minus_IZR. nra.
  - destruct (pulse_term_sign (mat_table_D c (Z.quot iso 1000)) (v c) r
                (IZR t0) (IZR t) HD Ht0' Htt) as (Hneg & Hpos & Hzero).
    split; intros Hr.
    + destruct Hr as [Hr | Hr].
      * specialize (Hneg Hr). nra.
      * rewrite (Hzero Hr). lra.
    + destruct Hr as [Hr | Hr].
      * specialize (Hpos Hr). nra.
      * rewrite (Hzero (eq_sym Hr)). lra.
Qed.

(** ** Runs of transport steps *)

Lemma last_cons_default (z : Z) (times : list Z) (d d' : Z) :
  List.last (z :: times) d = List.last (z :: times) d'.
Proof.
  revert z. induction times as [| y times IH]; intros z; [reflexivity |].
  change (List.last (y :: times) d = List.last (y :: times) d'). apply IH.
Qed.

Section ClockFacts.

Variable sum_mats : list (gmap Z R) -> gmap Z R * R.
Variable comp_to_conc_map : gmap Z R -> R -> R -> gmap Z double.

(** The cell a transport step returns. *)
Lemma transportNuclides_returns (the_time : Z) (c : OneDimPPMNuclide) :
  (last_updated c <= the_time)%Z ->
  transportNuclides sum_mats comp_to_conc_map the_time c =
    Returns
      (mkCell (v_ c) (porosity_ c) (rho_ c) (Co_ c) (Ci_ c) (geom_ c) the_time
         (wastes_ c)
         (<[the_time := sum_mats (wastes_ c)]> (vec_hist_ c))
         (<[the_time :=
              conc_profile c
                (comp_to_conc_map (fst (sum_mats (wastes_ c))) (snd (sum_mats (wastes_ c)))
                   (V_f c))
                (radial_midpoint (geom_ c)) the_time]> (conc_hist_ c))
         (mat_table_D c)).
Proof.
  intros Hle. unfold transportNuclides, update.
  rewrite update_conc_hist_returns by exact Hle. reflexivity.
Qed.

Lemma transportNuclides_inv (the_time : Z) (c c' : OneDimPPMNuclide) :
  transportNuclides sum_mats comp_to_conc_map the_time c = Returns c' ->
  (last_updated c <= the_time)%Z.
Proof.
  intros H. destruct (Z_le_gt_dec (last_updated c) the_time) as [Hle | Hgt]; [exact Hle |].
  unfold transportNuclides, update in H.
  rewrite update_conc_hist_fails in H by (cbn; unfold last_updated in *; lia).
  discriminate H.
Qed.

(** X1.  A run of transport steps returns exactly when the timesteps do not
    decrease, starting no earlier than the last update; otherwise it stops on
    the failed assertion. *)
Theorem transport_steps_monotone (times : list Z) (c : OneDimPPMNuclide) :
  (nondecreasing_from (last_updated c) times ->
     exists c',
       transport_steps sum_mats comp_to_conc_map times c = Returns c'
       /\ last_updated c' = List.last times (last_updated c)
       /\ wastes_ c' = wastes_ c)
  /\ (~ nondecreasing_from (last_updated c) times ->
        transport_steps sum_mats comp_to_conc_map times c = AssertionFailed).
Proof.
  revert c. induction times as [| t times IH]; intros c.
  - split.
    + intros _. exists c. repeat split.
    + intros Hn. exfalso. apply Hn. exact I.
  - cbn [transport_steps nondecreasing_from]. split.
    + intros [Hle Hrest]. rewrite transportNuclides_returns by exact Hle. cbn [bind].
      match goal with |- context [transport_steps _ _ times ?c1] =>
        destruct (IH c1) as [IHyes _]; destruct (IHyes Hrest) as (c' & Hc' & Hlast & Hw)
      end.
      exists c'. split; [exact Hc' |]. split; [| exact Hw].
      rewrite Hlast. destruct times as [| z times]; [reflexivity |].
      change (List.last (t :: z :: times) (last_updated c))
        with (List.last (z :: times) (last_updated c)).
      apply last_cons_default.
    + intros Hn. destruct (Z_le_gt_dec (last_updated c) t) as [Hle | Hgt].
      * rewrite transportNuclides_returns by exact Hle. cbn [bind].
        match goal with |- context [transport_steps _ _ times ?c1] =>
          destruct (IH c1) as [_ IHno]
        end.
        apply IHno. intros Hrest. apply Hn. split; assumption.
      * unfold transportNuclides, update.
        rewrite update_conc_hist_fails by (cbn; unfold last_updated in *; lia).
        reflexivity.
Qed.

(** X2.  A transport step leaves the ledger, the parameters and the
    snapshots of the other timesteps as they are, and stores the sum of the
    ledger and a concentration snapshot for its timestep. *)
Theorem transportNuclides_frame (the_time : Z) (c c' : OneDimPPMNuclide) :
  transportNuclides sum_mats comp_to_conc_map the_time c = Returns c' ->
  wastes_ c' = wastes_ c
  /\ (v_ c', porosity_ c', rho_ c', geom_ c') = (v_ c, porosity_ c, rho_ c, geom_ c)
  /\ (Co_ c', Ci_ c') = (Co_ c, Ci_ c)
  /\ (forall k, k <> the_time ->
        conc_hist_ c' !! k = conc_hist_ c !! k /\ vec_hist_ c' !! k = vec_hist_ c !! k)
  /\ vec_hist_ c' !! the_time = Some (sum_mats (wastes_ c))
  /\ is_Some (conc_hist_ c' !! the_time).
Proof.
  intros H. pose proof (transportNuclides_inv _ _ _ H) as Hle.
  rewrite transportNuclides_returns in H by exact Hle. injection H as <-.
  cbn. repeat split.
  - rewrite lookup_insert_ne by congruence. reflexivity.
  - rewrite lookup_insert_ne by congruence. reflexivity.
  - apply lookup_insert_eq.
  - rewrite lookup_insert_eq. eexists. reflexivity.
Qed.

(** X3.  Repeating the transport step of the same timestep changes
    nothing. *)
Theorem transportNuclides_idempotent (the_time : Z) (c c' : OneDimPPMNuclide) :
  transportNuclides sum_mats comp_to_conc_map the_time c = Returns c' ->
  transportNuclides sum_mats comp_to_conc_map the_time c' = Returns c'.
Proof.
  intros H. pose proof (transportNuclides_inv _ _ _ H) as Hle.
  rewrite transportNuclides_returns in H by exact Hle. injection H as <-.
  rewrite transportNuclides_returns by (cbn; lia).
  cbn [v_ porosity_ rho_ Co_ Ci_ geom_ wastes_ vec_hist_ conc_hist_ mat_table_D].
  rewrite !insert_insert_eq. reflexivity.
Qed.

(** X4.  After a transport step the Dirichlet boundary condition is the
    profile just stored, and its isotopes are those of the concentration map
    derived from the ledger. *)
Theorem dirichlet_bc_after_step (the_time : Z) (c c' : OneDimPPMNuclide) :
  transportNuclides sum_mats comp_to_conc_map the_time c = Returns c' ->
  dirichlet_bc c' =
    conc_profile c
      (comp_to_conc_map (fst (sum_mats (wastes_ c))) (snd (sum_mats (wastes_ c)))
         (V_f c))
      (radial_midpoint (geom_ c)) the_time
  /\ dom (dirichlet_bc c') =
       dom (comp_to_conc_map (fst (sum_mats (wastes_ c))) (snd (sum_mats (wastes_ c)))
              (V_f c)).
Proof.
  intros H. pose proof (transportNuclides_inv _ _ _ H) as Hle.
  rewrite transportNuclides_returns in H by exact Hle. injection H as <-.
  unfold dirichlet_bc, conc_hist, last_updated. cbn [last_updated_ conc_hist_].
  rewrite lookup_insert_eq. split; [reflexivity |].
  apply set_eq. intros iso. rewrite !elem_of_dom.
  unfold default, Datatypes.id. rewrite conc_profile_lookup.
  destruct (comp_to_conc_map _ _ _ !! iso); cbn; unfold is_Some; split;
    intros [x Hx]; eauto; discriminate.
Qed.

End ClockFacts.

Section StepFacts.

Variable sum_mats : list (gmap Z R) -> gmap Z R * R.
Variable comp_to_conc_map : gmap Z R -> R -> R -> gmap Z double.

(** X6.  At a positive timestep, with positive dispersion coefficients, the
    step stores a number for every isotope whose ledger concentration is a
    number: the closed form with C0 = Ci. *)
Theorem transportNuclides_positive_time (the_time : Z) (c : OneDimPPMNuclide)
    (iso : Z) (x0 : R) :
  (0 < the_time)%Z ->
  (last_updated c <= the_time)%Z ->
  0 < mat_table_D c (Z.quot iso 1000) ->
  comp_to_conc_map (fst (sum_mats (wastes_ c))) (snd (sum_mats (wastes_ c))) (V_f c)
    !! iso = Some (Num x0) ->
  exists c',
    transportNuclides sum_mats comp_to_conc_map the_time c = Returns c'
    /\ dirichlet_bc c' !! iso =
         Some (Num (SolverSpec.C (mat_table_D c (Z.quot iso 1000)) (v c) 1
                      (radial_midpoint (geom_ c)) (IZR the_time)
                      (IZR (the_time + the_time)) x0 x0)).
Proof.
  intros Hpos Hle HD Hx0.
  eexists. split; [apply transportNuclides_returns; exact Hle |].
  unfold dirichlet_bc, conc_hist, last_updated. cbn [last_updated_ conc_hist_].
  rewrite lookup_insert_eq. unfold default, Datatypes.id.
  rewrite conc_profile_lookup, Hx0. cbn [fmap option_fmap option_map]. f_equal.
  assert (Ht : 0 < IZR the_time) by (apply IZR_lt; lia).
  apply calculate_conc_value.
  - rewrite plus_IZR. nra.
  - replace (the_time + the_time - the_time)%Z with the_time by lia. nra.
  - unfold at_iso. rewrite Hx0. reflexivity.
  - unfold at_iso. rewrite Hx0. reflexivity.
Qed.

(** X7.  The step of timestep 0 calls the solver with t = t0 = 0: every value
    it stores is computed through a division by zero. *)
Theorem transportNuclides_time_zero (c : OneDimPPMNuclide) (iso : Z) :
  (last_updated c <= 0)%Z ->
  iso ∈ dom (comp_to_conc_map (fst (sum_mats (wastes_ c))) (snd (sum_mats (wastes_ c)))
               (V_f c)) ->
  exists c',
    transportNuclides sum_mats comp_to_conc_map 0 c = Returns c'
    /\ dirichlet_bc c' !! iso = Some FPExc.
Proof.
  intros Hle Hin. apply elem_of_dom in Hin as [x Hx].
  eexists. split; [apply transportNuclides_returns; exact Hle |].
  unfold dirichlet_bc, conc_hist, last_updated. cbn [last_updated_ conc_hist_].
  rewrite lookup_insert_eq. unfold default, Datatypes.id.
  apply (conc_profile_at_zero _ _ _ _ x). exact Hx.
Qed.

(** X8.  [extract] refreshes the histories at the last update from the ledger
    that is left, without moving the last update; it throws when
    [MatTools::extract] does, and never stops on the assertion. *)
Theorem extract_outcome (comp_to_rem : gmap Z R) (kg_to_rem : R) (c : OneDimPPMNuclide) :
  match MatTools.extract comp_to_rem kg_to_rem (wastes_ c) with
  | Some (to_ret, wastes) =>
      exists c',
        extract sum_mats comp_to_conc_map comp_to_rem kg_to_rem c = Returns (to_ret, c')
        /\ wastes_ c' = wastes
        /\ last_updated c' = last_updated c
        /\ vec_hist_ c' !! last_updated c = Some (sum_mats wastes)
        /\ dirichlet_bc c' =
             conc_profile c
               (comp_to_conc_map (fst (sum_mats wastes)) (snd (sum_mats wastes)) (V_f c))
               (radial_midpoint (geom_ c)) (last_updated c)
  | None =>
      extract sum_mats comp_to_conc_map comp_to_rem kg_to_rem c
        = Throws InsufficientInventory
  end.
Proof.
  unfold extract.
  destruct (MatTools.extract comp_to_rem kg_to_rem (wastes_ c)) as [[to_ret wastes] |];
    [| reflexivity].
  change (update sum_mats comp_to_conc_map) with (transportNuclides sum_mats comp_to_conc_map).
  rewrite transportNuclides_returns by (cbn; lia). cbn [bind].
  eexists. split; [reflexivity |].
  cbn [wastes_ set_wastes]. repeat split.
  - apply lookup_insert_eq.
  - unfold dirichlet_bc, conc_hist, last_updated. cbn [last_updated_ conc_hist_ set_wastes].
    rewrite lookup_insert_eq. reflexivity.
Qed.

End StepFacts.

(** ** Boundary conditions, continued *)

(** X12.  With the internal concentrations passed as the external ones, at
    another radius, the flux of an isotope is the advective term v * C. *)
Theorem cauchy_bc_no_gradient (c : OneDimPPMNuclide) (r_ext : R) (iso : Z) (x : R) :
  r_ext <> radial_midpoint (geom c) ->
  conc_hist c (last_updated c) !! iso = Some (Num x) ->
  cauchy_bc c (conc_hist c (last_updated c)) r_ext !! iso = Some (Num (v c * x)).
Proof.
  intros Hr Hx. rewrite cauchy_bc_lookup, neumann_bc_lookup.
  unfold dirichlet_bc_iso, dirichlet_bc, at_iso. rewrite Hx. cbn [default fmap option_fmap option_map].
  unfold default, Datatypes.id. rewrite calc_conc_grad_equal by exact Hr.
  autorewrite with dbl. do 2 f_equal. lra.
Qed.

Lemma sum_values_bounds (m : gmap Z double) :
  (forall i x, m !! i = Some x -> exists y, x = Num y /\ 0 <= y) ->
  exists s,
    sum_values m = Num s /\ 0 <= s
    /\ forall i y, m !! i = Some (Num y) -> y <= s.
Proof.
  induction m as [| i x m Hi IH] using map_ind; intros Hm.
  - exists 0. rewrite sum_values_empty. repeat split; [lra |].
    intros j y Hj. rewrite lookup_empty in Hj. discriminate.
  - destruct IH as (s & Hs & Hs0 & Hle).
    { intros j z Hj. apply (Hm j z). rewrite lookup_insert_ne; [exact Hj |].
      intros ->. rewrite Hi in Hj. discriminate. }
    destruct (Hm i x) as (y & -> & Hy); [apply lookup_insert_eq |].
    exists (s + y). rewrite sum_values_insert by exact Hi. rewrite Hs.
    repeat split; [lra |].
    intros j z Hj. destruct (decide (j = i)) as [-> | Hne].
    + rewrite lookup_insert_eq in Hj. injection Hj as <-. lra.
    + rewrite lookup_insert_ne in Hj by congruence. specialize (Hle j z Hj). lra.
Qed.

(** X13.  With concentrations that are not negative, the masses of the source
    term are not negative and none exceeds the total mass. *)
Theorem source_term_bc_nonneg (c : OneDimPPMNuclide) :
  0 <= volume (geom_ c) -> 0 <= porosity c ->
  (forall iso x, conc_hist c (last_updated c) !! iso = Some x ->
                 exists y, x = Num y /\ 0 <= y) ->
  exists tot_mass,
    snd (source_term_bc c) = Num tot_mass /\ 0 <= tot_mass
    /\ forall iso y,
        conc_hist c (last_updated c) !! iso = Some (Num y) ->
        fst (source_term_bc c) !! iso = Some (Num (y * (volume (geom_ c) * porosity c)))
        /\ 0 <= y * (volume (geom_ c) * porosity c) <= tot_mass.
Proof.
  intros HV Hp Hconc. unfold source_term_bc. rewrite source_term_loop. cbn [fst snd].
  unfold scaleConcMap, V_f, V_T, MatTools_V_f.
  set (pv := volume (geom_ c) * porosity c).
  assert (Hpv : 0 <= pv) by (unfold pv; nra).
  destruct (sum_values_bounds ((fun x => (x * Num pv)%D) <$> conc_hist c (last_updated c)))
    as (s & Hs & Hs0 & Hle).
  { intros i x Hi. rewrite lookup_fmap in Hi.
    destruct (conc_hist c (last_updated c) !! i) as [x' |] eqn:Hx'; [| discriminate].
    destruct (Hconc i x' Hx') as (y & -> & Hy). injection Hi as <-.
    exists (y * pv). split; [reflexivity | nra]. }
  exists s. repeat split; try assumption.
  - rewrite lookup_fmap, H. reflexivity.
  - destruct (Hconc iso (Num y) H) as (y' & [= <-] & Hy). nra.
  - apply (Hle iso). rewrite lookup_fmap, H. reflexivity.
Qed.

(** ** The trapezoidal rule, continued *)

Lemma fmap_erase_In (a k : R) (m : gmap Z double) (fmap : list (R * gmap Z double)) :
  k <> a -> In (k, m) fmap -> In (k, m) (fmap_erase a fmap).
Proof.
  intros Hne. induction fmap as [| [k' m'] fmap IH]; intros Hin; [exact Hin |].
  cbn [fmap_erase]. destruct (Req_dec_T k' a) as [-> | Hk'].
  - destruct Hin as [[= <- _] | Hin]; [contradiction | exact Hin].
  - destruct Hin as [Heq | Hin]; [left; exact Heq | right; apply IH; exact Hin].
Qed.

Lemma size_t_of_double_out_of_range (k : R) :
  2 <= k \/ k <= -1 ->
  match size_t_of_double k with
  | Some i => (2 <= i)%nat
  | None => True
  end.
Proof.
  intros Hk. unfold size_t_of_double.
  destruct (Rle_dec k (-1)) as [_ | Hk1]; [exact I |].
  destruct (Rlt_dec k 0) as [Hk0 | _]; [lra |].
  destruct (base_Int_part k) as [_ Hip].
  assert (1 < IZR (Int_part k)) by lra.
  apply lt_IZR in H. lia.
Qed.

Lemma vector_assign_out_of_range (terms : list (gmap Z double)) (k : R)
    (m : gmap Z double) :
  length terms = 2%nat -> 2 <= k \/ k <= -1 -> vector_assign terms k m = None.
Proof.
  intros Hlen Hk. unfold vector_assign.
  pose proof (size_t_of_double_out_of_range k Hk) as Hi.
  destruct (size_t_of_double k) as [i |]; [| reflexivity].
  destruct (decide (i < length terms)%nat); [lia | reflexivity].
Qed.

Lemma vector_assign_length (terms terms' : list (gmap Z double)) (k : R)
    (m : gmap Z double) :
  vector_assign terms k m = Some terms' -> length terms' = length terms.
Proof.
  unfold vector_assign. destruct (size_t_of_double k) as [i |]; [| discriminate].
  destruct (decide (i < length terms)%nat); [| discriminate].
  intros [= <-]. apply length_insert.
Qed.

Lemma interior_terms_none (scale : double) (fmap : list (R * gmap Z double)) :
  foldl
    (fun terms f =>
       match terms with
       | Some terms => vector_assign terms (fst f) (scaleConcMap (snd f) scale)
       | None => None
       end)
    None fmap = None.
Proof. induction fmap as [| f fmap IH]; [reflexivity | exact IH]. Qed.

Lemma interior_terms_out_of_range (scale : double) (k : R) (m : gmap Z double)
    (fmap : list (R * gmap Z double)) :
  In (k, m) fmap -> 2 <= k \/ k <= -1 ->
  forall terms, length terms = 2%nat ->
    foldl
      (fun terms f =>
         match terms with
         | Some terms => vector_assign terms (fst f) (scaleConcMap (snd f) scale)
         | None => None
         end)
      (Some terms) fmap = None.
Proof.
  intros Hin Hk. induction fmap as [| f fmap IH]; [destruct Hin |].
  intros terms Hlen. cbn [foldl].
  destruct Hin as [-> | Hin].
  - cbn [fst snd]. rewrite vector_assign_out_of_range by assumption.
    apply interior_terms_none.
  - destruct (vector_assign terms f.1 (scaleConcMap f.2 scale)) as [terms' |] eqn:Ha.
    + apply IH; [exact Hin |].
      apply vector_assign_length in Ha. lia.
    + apply interior_terms_none.
Qed.

(** X14.  An interior sample at a radius of 2 or more, or of -1 or less, is
    written outside the vector of two terms: the behaviour is undefined. *)
Theorem trap_rule_out_of_range (a b : R) (n : Z) (fmap : list (R * gmap Z double))
    (k : R) (m : gmap Z double) :
  In (k, m) fmap -> k <> a -> k <> b -> 2 <= k \/ k <= -1 ->
  trap_rule a b n fmap = None.
Proof.
  intros Hin Ha Hb Hk. unfold trap_rule.
  assert (Hin1 : In (k, m) (fmap_erase a fmap)) by (apply fmap_erase_In; assumption).
  destruct (fmap_find a fmap) as [f_0 |].
  - assert (Hin2 : In (k, m) (fmap_erase b (fmap_erase a fmap)))
      by (apply fmap_erase_In; assumption).
    destruct (fmap_find b (fmap_erase a fmap)) as [f_n |].
    + rewrite (interior_terms_out_of_range _ k m) by (assumption || reflexivity).
      reflexivity.
    + rewrite (interior_terms_out_of_range _ k m) by (assumption || reflexivity).
      reflexivity.
  - assert (Hin2 : In (k, m) (fmap_erase b fmap)) by (apply fmap_erase_In; assumption).
    destruct (fmap_find b fmap) as [f_n |].
    + rewrite (interior_terms_out_of_range _ k m) by (assumption || reflexivity).
      reflexivity.
    + rewrite (interior_terms_out_of_range _ k m) by (assumption || reflexivity).
      reflexivity.
Qed.

Lemma addConcMaps_empty_r (m : gmap Z double) : addConcMaps m ∅ = m.
Proof.
  apply map_eq. intros i. unfold addConcMaps.
  rewrite lookup_union_with, lookup_empty. destruct (m !! i); reflexivity.
Qed.

(** X15.  On an interval of width zero the sample at the one radius is returned
    as it is, whatever n. *)
Theorem trap_rule_zero_width (a : R) (n : Z) (f : gmap Z double) :
  trap_rule a a n [(a, f)] = Some f.
Proof.
  unfold trap_rule. cbn [fmap_find fmap_erase].
  destruct (Req_dec_T a a) as [_ | Hne]; [| contradiction].
  cbn [fmap_find foldl]. rewrite addConcMaps_empty_l, addConcMaps_empty_r. reflexivity.
Qed.

Lemma fmap_find_erase_ne (a b : R) (fmap : list (R * gmap Z double)) :
  a <> b -> fmap_find b (fmap_erase a fmap) = fmap_find b fmap.
Proof.
  intros Hab. induction fmap as [| [k m] fmap IH]; [reflexivity |].
  cbn [fmap_erase fmap_find]. destruct (Req_dec_T k a) as [-> | Hk].
  - destruct (Req_dec_T a b); [contradiction | reflexivity].
  - cbn [fmap_find]. destruct (Req_dec_T k b); [reflexivity | exact IH].
Qed.

Lemma fmap_erase_In_inv (a k : R) (m : gmap Z double) (fmap : list (R * gmap Z double)) :
  In (k, m) (fmap_erase a fmap) -> In (k, m) fmap.
Proof.
  induction fmap as [| [k' m'] fmap IH]; [intros [] |].
  cbn [fmap_erase]. destruct (Req_dec_T k' a).
  - intros Hin. right. exact Hin.
  - intros [Heq | Hin]; [left; exact Heq | right; apply IH; exact Hin].
Qed.

Lemma fmap_key_In (k : R) (m : gmap Z double) (fmap : list (R * gmap Z double)) :
  In (k, m) fmap -> k ∈ fmap.*1.
Proof.
  intros Hin. apply list_elem_of_fmap. exists (k, m).
  split; [reflexivity | apply list_elem_of_In; exact Hin].
Qed.

Lemma fmap_erase_NoDup (a : R) (fmap : list (R * gmap Z double)) :
  NoDup (fmap.*1) -> NoDup ((fmap_erase a fmap).*1).
Proof.
  induction fmap as [| [k m] fmap IH]; [intros H; exact H |].
  intros Hnd. change (NoDup (k :: fmap.*1)) in Hnd.
  apply NoDup_cons in Hnd as [Hnotin Hnd].
  cbn [fmap_erase]. destruct (Req_dec_T k a); [exact Hnd |].
  change (NoDup (k :: (fmap_erase a fmap).*1)). apply NoDup_cons.
  split; [| apply IH; exact Hnd].
  intros Hin. apply Hnotin. apply list_elem_of_fmap in Hin as ([k' m'] & Hk & Hin).
  cbn in Hk. subst k'. apply (fmap_key_In k m').
  apply (fmap_erase_In_inv a). apply list_elem_of_In. exact Hin.
Qed.

Lemma fmap_erase_not_key (a k : R) (m : gmap Z double) (fmap : list (R * gmap Z double)) :
  NoDup (fmap.*1) -> In (k, m) (fmap_erase a fmap) -> k <> a.
Proof.
  induction fmap as [| [k' m'] fmap IH]; [intros _ [] |].
  intros Hnd. change (NoDup (k' :: fmap.*1)) in Hnd.
  apply NoDup_cons in Hnd as [Hnotin Hnd].
  cbn [fmap_erase]. destruct (Req_dec_T k' a) as [-> | Hk'].
  - intros Hin ->. apply Hnotin. apply (fmap_key_In a m). exact Hin.
  - intros [[= -> _] | Hin]; [exact Hk' | apply IH; assumption].
Qed.

Lemma fmap_find_None_not_key (a k : R) (m : gmap Z double)
    (fmap : list (R * gmap Z double)) :
  fmap_find a fmap = None -> In (k, m) fmap -> k <> a.
Proof.
  induction fmap as [| [k' m'] fmap IH]; [intros _ [] |].
  cbn [fmap_find]. destruct (Req_dec_T k' a) as [-> | Hk']; [discriminate |].
  intros Hnone [[= -> _] | Hin]; [exact Hk' | apply IH; assumption].
Qed.

(** [find] and [erase] of the one key a map holds leave nothing. *)
Lemma fmap_take_only_key (b : R) (fmap : list (R * gmap Z double)) :
  NoDup (fmap.*1) -> (forall k m, In (k, m) fmap -> k = b) ->
  match fmap_find b fmap with
  | Some _ => fmap_erase b fmap
  | None => fmap
  end = [].
Proof.
  destruct fmap as [| [k m] fmap]; [reflexivity |].
  intros Hnd Hkeys. cbn [fmap_find fmap_erase].
  assert (k = b) as -> by (apply (Hkeys k m); left; reflexivity).
  destruct (Req_dec_T b b) as [_ | Hne]; [| contradiction].
  destruct fmap as [| [k' m'] fmap]; [reflexivity |].
  assert (k' = b) as -> by (apply (Hkeys k' m'); right; left; reflexivity).
  change (NoDup (b :: b :: fmap.*1)) in Hnd.
  apply NoDup_cons in Hnd as [Hnotin _].
  exfalso. apply Hnotin. left.
Qed.

(** X16.  With samples at the endpoints only, the rule returns the sum of the
    endpoint samples as they are, a missing one counting as empty: neither
    n nor b - a enters the result. *)
Theorem trap_rule_no_interior (a b : R) (n : Z) (fmap : list (R * gmap Z double)) :
  a <> b ->
  NoDup (fmap.*1) ->
  (forall k m, In (k, m) fmap -> k = a \/ k = b) ->
  trap_rule a b n fmap =
    Some (addConcMaps (default ∅ (fmap_find a fmap)) (default ∅ (fmap_find b fmap))).
Proof.
  intros Hab Hnd Hkeys. unfold trap_rule.
  set (fmap1 := match fmap_find a fmap with
                | Some _ => fmap_erase a fmap
                | None => fmap
                end).
  assert (Hnd1 : NoDup (fmap1.*1)).
  { unfold fmap1. destruct (fmap_find a fmap); [apply fmap_erase_NoDup |]; exact Hnd. }
  assert (Hkeys1 : forall k m, In (k, m) fmap1 -> k = b).
  { unfold fmap1. intros k m Hin. destruct (fmap_find a fmap) eqn:Ha.
    - pose proof (fmap_erase_not_key a k m fmap Hnd Hin) as Hne.
      apply fmap_erase_In_inv in Hin. destruct (Hkeys k m Hin); [contradiction | assumption].
    - pose proof (fmap_find_None_not_key a k m fmap Ha Hin) as Hne.
      destruct (Hkeys k m Hin); [contradiction | assumption]. }
  assert (Hfind : fmap_find b fmap1 = fmap_find b fmap).
  { unfold fmap1. destruct (fmap_find a fmap); [apply fmap_find_erase_ne; exact Hab |].
    reflexivity. }
  pose proof (fmap_take_only_key b fmap1 Hnd1 Hkeys1) as Hnil.
  rewrite Hfind in Hnil.
  replace (match fmap_find a fmap with
           | Some m => (m, fmap_erase a fmap)
           | None => (∅, fmap)
           end) with (default ∅ (fmap_find a fmap), fmap1)
    by (unfold fmap1; destruct (fmap_find a fmap); reflexivity).
  rewrite Hfind.
  replace (match fmap_find b fmap with
           | Some m => (m, fmap_erase b fmap1)
           | None => (∅, fmap1)
           end)
    with (default ∅ (fmap_find b fmap),
          match fmap_find b fmap with Some _ => fmap_erase b fmap1 | None => fmap1 end)
    by (destruct (fmap_find b fmap); reflexivity).
  rewrite Hnil. cbn [foldl]. rewrite addConcMaps_empty_l. reflexivity.
Qed.

(** ** The solver over a map *)

(** X11.  The map overload of the solver returns the isotopes of C_0 and no
    other: an isotope of C_i alone is dropped, and for an isotope of C_0 that
    C_i does not hold the initial term vanishes. *)
Theorem calculate_conc_map_keys (c : OneDimPPMNuclide) (C_0 C_i : gmap Z double)
    (r : R) (t0 t : Z) :
  dom (calculate_conc_map c C_0 C_i r t0 t) = dom C_0
  /\ (forall iso, iso ∈ dom C_0 ->
        calculate_conc_map c C_0 C_i r t0 t !! iso
          = Some (calculate_conc c C_0 C_i r iso t0 t))
  /\ (forall iso c0,
        C_0 !! iso = Some (Num c0) -> C_i !! iso = None ->
        0 < mat_table_D c (Z.quot iso 1000) -> (0 < t0)%Z -> (t0 < t)%Z ->
        calculate_conc_map c C_0 C_i r t0 t !! iso
          = Some (Num (c0 * SolverSpec.A (mat_table_D c (Z.quot iso 1000)) (v c) 1 r
                              (IZR t0) (IZR t)))).
Proof.
  assert (Hlookup : forall iso,
             calculate_conc_map c C_0 C_i r t0 t !! iso
               = (fun _ => calculate_conc c C_0 C_i r iso t0 t) <$> (C_0 !! iso)).
  { intros iso. unfold calculate_conc_map. rewrite map_fold_insert_lookup.
    destruct (C_0 !! iso); reflexivity. }
  split; [| split].
  - apply set_eq. intros iso. rewrite !elem_of_dom, Hlookup.
    destruct (C_0 !! iso); cbn; unfold is_Some; split; intros [x Hx]; eauto; discriminate.
  - intros iso Hin. apply elem_of_dom in Hin as [x Hx]. rewrite Hlookup, Hx. reflexivity.
  - intros iso c0 HC0 HCi HD Ht0 Ht. rewrite Hlookup, HC0.
    cbn [fmap option_fmap option_map]. f_equal.
    assert (0 < IZR t0) by (apply IZR_lt; lia).
    assert (IZR t0 < IZR t) by (apply IZR_lt; lia).
    rewrite (calculate_conc_value c C_0 C_i r iso t0 t c0 0).
    + f_equal. unfold SolverSpec.C, SolverSpec.B. lra.
    + nra.
    + rewrite minus_IZR. nra.
    + unfold at_iso. rewrite HC0. reflexivity.
    + unfold at_iso. rewrite HCi. reflexivity.
Qed.

(** ** Copy and dated histories *)

Section CopyFacts.

Variable sum_mats : list (gmap Z R) -> gmap Z R * R.
Variable comp_to_conc_map : gmap Z R -> R -> R -> gmap Z double.
Variable Geometry_copy : Geometry -> Geometry.

(** X17.  [copy] returns exactly when the porosity of the source is within 0
    and 1 and its bulk density is positive.  The copy has the parameters of
    the source, an empty ledger, no concentration snapshot and one entry of
    the isotope history; the concentrations Co_ and Ci_ and the material table
    are not copied. *)
Theorem copy_outcome (time : Z) (src c : OneDimPPMNuclide) :
  (0 <= porosity src <= 1 -> 0 < rho src ->
     copy sum_mats Geometry_copy time src c =
       Stored (mkCell (v src) (porosity src) (rho src) (Co_ c) (Ci_ c)
                 (Geometry_copy (geom src)) time [] {[time := sum_mats []]} ∅
                 (mat_table_D c)))
  /\ (~ (0 <= porosity src <= 1 /\ 0 < rho src) ->
        copy sum_mats Geometry_copy time src c = CycRangeException).
Proof.
  unfold copy, set_porosity, set_rho, validate_percent, validate_finite_pos.
  split.
  - intros Hp Hr.
    rewrite bool_decide_eq_true_2 by exact Hp.
    rewrite bool_decide_eq_true_2 by exact Hr.
    unfold update_vec_hist. cbn. rewrite insert_empty. reflexivity.
  - intros Hn. destruct (decide (0 <= porosity src /\ porosity src <= 1)) as [Hp | Hp].
    + rewrite bool_decide_eq_true_2 by exact Hp.
      rewrite bool_decide_eq_false_2; [reflexivity |].
      intros Hr. apply Hn. split; assumption.
    + rewrite bool_decide_eq_false_2 by exact Hp. reflexivity.
Qed.

(** A cell as constructed cannot be copied: its bulk density is 0. *)
Lemma copy_of_new_throws (time : Z) (g : Geometry) (D : Z -> R) (c : OneDimPPMNuclide) :
  copy sum_mats Geometry_copy time (OneDimPPMNuclide_new g D) c = CycRangeException.
Proof.
  unfold copy, set_porosity, set_rho, validate_percent, validate_finite_pos.
  cbn [porosity porosity_ rho rho_ OneDimPPMNuclide_new].
  rewrite bool_decide_eq_true_2 by lra.
  rewrite bool_decide_eq_false_2 by lra. reflexivity.
Qed.

Lemma transportNuclides_dated (the_time : Z) (c c' : OneDimPPMNuclide) :
  history_dated c ->
  transportNuclides sum_mats comp_to_conc_map the_time c = Returns c' ->
  history_dated c' /\ is_Some (conc_hist_ c' !! last_updated c').
Proof.
  intros [Hc Hv] H. pose proof (transportNuclides_inv _ _ _ _ _ H) as Hle.
  rewrite transportNuclides_returns in H by exact Hle. injection H as <-.
  unfold history_dated, last_updated in *. cbn [last_updated_ conc_hist_ vec_hist_].
  split; [split; apply map_Forall_insert_2; try lia |].
  - intros k x Hk. specialize (Hc k x Hk). cbn in Hc. lia.
  - intros k x Hk. specialize (Hv k x Hk). cbn in Hv. lia.
  - rewrite lookup_insert_eq. eexists. reflexivity.
Qed.

(** X5.  Along a run of transport steps no snapshot is dated after the last
    update, and after at least one step the boundary conditions read a
    snapshot that exists, the latest one. *)
Theorem transport_steps_history_dated (times : list Z) (c c' : OneDimPPMNuclide) :
  history_dated c ->
  transport_steps sum_mats comp_to_conc_map times c = Returns c' ->
  history_dated c'
  /\ (times <> [] -> conc_hist_ c' !! last_updated c' = Some (dirichlet_bc c')).
Proof.
  revert c. induction times as [| t times IH]; intros c Hc H.
  - cbn in H. injection H as <-. split; [exact Hc | intros Hne; contradiction].
  - cbn [transport_steps] in H.
    destruct (transportNuclides sum_mats comp_to_conc_map t c) as [c1 | |] eqn:H1;
      try discriminate H.
    cbn [bind] in H.
    destruct (transportNuclides_dated t c c1 Hc H1) as [Hc1 Hsome].
    destruct (IH c1 Hc1 H) as [Hc' Hread]. split; [exact Hc' |]. intros _.
    destruct times as [| t' times].
    + cbn in H. injection H as <-. destruct Hsome as [m Hm].
      unfold dirichlet_bc, conc_hist. rewrite Hm. reflexivity.
    + apply Hread. discriminate.
Qed.

End CopyFacts.

(** ** The properties on the fixtures *)

Lemma transport_steps_monotone_witness :
  (exists c',
     transport_steps fixture_sum_mats fixture_comp_to_conc_map [0; 1; 1; 3]%Z fixture_cell
       = Returns c'
     /\ last_updated c' = List.last [0; 1; 1; 3]%Z (last_updated fixture_cell)
     /\ wastes_ c' = wastes_ fixture_cell)
  /\ transport_steps fixture_sum_mats fixture_comp_to_conc_map [2; 1]%Z fixture_cell
       = AssertionFailed.
Proof.
  split.
  - apply (transport_steps_monotone fixture_sum_mats fixture_comp_to_conc_map
             [0; 1; 1; 3]%Z fixture_cell).
    cbn. lia.
  - apply (transport_steps_monotone fixture_sum_mats fixture_comp_to_conc_map
             [2; 1]%Z fixture_cell).
    cbn. lia.
Defined.

Lemma transportNuclides_frame_witness :
  wastes_ stepped_cell = wastes_ fixture_cell
  /\ (v_ stepped_cell, porosity_ stepped_cell, rho_ stepped_cell, geom_ stepped_cell)
       = (v_ fixture_cell, porosity_ fixture_cell, rho_ fixture_cell, geom_ fixture_cell)
  /\ (Co_ stepped_cell, Ci_ stepped_cell) = (Co_ fixture_cell, Ci_ fixture_cell)
  /\ (forall k, k <> 1%Z ->
        conc_hist_ stepped_cell !! k = conc_hist_ fixture_cell !! k
        /\ vec_hist_ stepped_cell !! k = vec_hist_ fixture_cell !! k)
  /\ vec_hist_ stepped_cell !! 1%Z = Some (fixture_sum_mats (wastes_ fixture_cell))
  /\ is_Some (conc_hist_ stepped_cell !! 1%Z).
Proof.
  apply (transportNuclides_frame fixture_sum_mats fixture_comp_to_conc_map 1
           fixture_cell stepped_cell).
  reflexivity.
Defined.

Lemma transportNuclides_idempotent_witness :
  transportNuclides fixture_sum_mats fixture_comp_to_conc_map 1 stepped_cell
    = Returns stepped_cell.
Proof.
  apply (transportNuclides_idempotent fixture_sum_mats fixture_comp_to_conc_map 1
           fixture_cell stepped_cell).
  reflexivity.
Defined.

Lemma dirichlet_bc_after_step_witness :
  dirichlet_bc stepped_cell =
    conc_profile fixture_cell
      (fixture_comp_to_conc_map (fst (fixture_sum_mats (wastes_ fixture_cell)))
         (snd (fixture_sum_mats (wastes_ fixture_cell))) (V_f fixture_cell))
      (radial_midpoint (geom_ fixture_cell)) 1
  /\ dom (dirichlet_bc stepped_cell) =
       dom (fixture_comp_to_conc_map (fst (fixture_sum_mats (wastes_ fixture_cell)))
              (snd (fixture_sum_mats (wastes_ fixture_cell))) (V_f fixture_cell)).
Proof.
  apply (dirichlet_bc_after_step fixture_sum_mats fixture_comp_to_conc_map 1
           fixture_cell stepped_cell).
  reflexivity.
Defined.

Lemma fixture_cell_dated : history_dated fixture_cell.
Proof. split; apply map_Forall_empty. Qed.

Lemma transport_steps_history_dated_witness :
  history_dated clocked_cell
  /\ ([1; 2]%Z <> [] ->
      conc_hist_ clocked_cell !! last_updated clocked_cell
        = Some (dirichlet_bc clocked_cell)).
Proof.
  apply (transport_steps_history_dated fixture_sum_mats fixture_comp_to_conc_map
           [1; 2]%Z fixture_cell clocked_cell).
  - exact fixture_cell_dated.
  - reflexivity.
Defined.

Lemma transportNuclides_positive_time_witness :
  exists c',
    transportNuclides fixture_sum_mats fixture_comp_to_conc_map 1 fixture_cell
      = Returns c'
    /\ dirichlet_bc c' !! u235 =
         Some (Num (SolverSpec.C (mat_table_D fixture_cell (Z.quot u235 1000))
                      (v fixture_cell) 1 (radial_midpoint (geom_ fixture_cell))
                      (IZR 1) (IZR (1 + 1)) 1 1)).
Proof.
  apply (transportNuclides_positive_time fixture_sum_mats fixture_comp_to_conc_map 1
           fixture_cell u235 1).
  - lia.
  - simpl. lia.
  - simpl. lra.
  - reflexivity.
Defined.

Lemma transportNuclides_time_zero_witness :
  exists c',
    transportNuclides fixture_sum_mats fixture_comp_to_conc_map 0 fixture_cell
      = Returns c'
    /\ dirichlet_bc c' !! u235 = Some FPExc.
Proof.
  apply (transportNuclides_time_zero fixture_sum_mats fixture_comp_to_conc_map
           fixture_cell u235).
  - simpl. lia.
  - apply elem_of_dom. exists (Num 1). reflexivity.
Defined.

Lemma calculate_conc_is_num_iff_witness :
  is_num (calculate_conc fixture_cell {[u235 := Num 1]} {[u235 := Num 1]} 1 u235 1 2).
Proof.
  apply (calculate_conc_is_num_iff fixture_cell {[u235 := Num 1]} {[u235 := Num 1]}
           1 u235 1 2).
  split; [exists 1; reflexivity |]. split; [exists 1; reflexivity |].
  change (0 < 1 * 2 /\ 0 < 1 * 1). lra.
Defined.

Lemma calculate_conc_sign_witness :
  calculate_conc fixture_cell {[u235 := Num 1]} ∅ 1 u235 1 2 =
    Num (1 * SolverSpec.A (mat_table_D fixture_cell (Z.quot u235 1000)) (v fixture_cell)
               1 1 (IZR 1) (IZR 2))
  /\ (1 <= v fixture_cell * IZR 2 ->
        1 * SolverSpec.A (mat_table_D fixture_cell (Z.quot u235 1000)) (v fixture_cell)
              1 1 (IZR 1) (IZR 2) <= 0)
  /\ (v fixture_cell * IZR 2 <= 1 ->
        0 <= 1 * SolverSpec.A (mat_table_D fixture_cell (Z.quot u235 1000))
                   (v fixture_cell) 1 1 (IZR 1) (IZR 2)).
Proof.
  apply (calculate_conc_sign fixture_cell {[u235 := Num 1]} ∅ 1 u235 1 2 1).
  - simpl. lra.
  - lia.
  - lia.
  - reflexivity.
  - lra.
  - reflexivity.
Defined.

Lemma calculate_conc_map_keys_witness :
  calculate_conc_map fixture_cell {[u235 := Num 1]} ∅ 1 1 2 !! u235
    = Some (Num (1 * SolverSpec.A (mat_table_D fixture_cell (Z.quot u235 1000))
                       (v fixture_cell) 1 1 (IZR 1) (IZR 2))).
Proof.
  apply (calculate_conc_map_keys fixture_cell {[u235 := Num 1]} ∅ 1 1 2).
  - reflexivity.
  - reflexivity.
  - simpl. lra.
  - lia.
  - lia.
Defined.

Lemma cauchy_bc_no_gradient_witness :
  cauchy_bc loaded_cell (conc_hist loaded_cell (last_updated loaded_cell)) 5 !! u235
    = Some (Num (v loaded_cell * 1)).
Proof.
  apply (cauchy_bc_no_gradient loaded_cell 5 u235 1).
  - simpl. lra.
  - reflexivity.
Defined.

Lemma loaded_cell_nonneg (iso : Z) (x : double) :
  conc_hist loaded_cell (last_updated loaded_cell) !! iso = Some x ->
  exists y, x = Num y /\ 0 <= y.
Proof.
  rewrite loaded_cell_snapshot. intros Hx.
  apply lookup_singleton_Some in Hx as [_ <-]. exists 1. split; [reflexivity | lra].
Qed.

Lemma source_term_bc_nonneg_witness :
  exists tot_mass,
    snd (source_term_bc loaded_cell) = Num tot_mass /\ 0 <= tot_mass
    /\ forall iso y,
        conc_hist loaded_cell (last_updated loaded_cell) !! iso = Some (Num y) ->
        fst (source_term_bc loaded_cell) !! iso
          = Some (Num (y * (volume (geom_ loaded_cell) * porosity loaded_cell)))
        /\ 0 <= y * (volume (geom_ loaded_cell) * porosity loaded_cell) <= tot_mass.
Proof.
  apply (source_term_bc_nonneg loaded_cell).
  - simpl. lra.
  - simpl. lra.
  - exact loaded_cell_nonneg.
Defined.

Lemma trap_rule_out_of_range_witness : trap_rule 4 5 3 fixture_samples = None.
Proof.
  apply (trap_rule_out_of_range 4 5 3 fixture_samples (9/2) {[u235 := Num 1]}).
  - right. left. reflexivity.
  - lra.
  - lra.
  - left. lra.
Defined.

Lemma two_samples_keys : NoDup (two_samples.*1).
Proof.
  change (NoDup [0; 1]). apply NoDup_cons. split.
  - intros Hin. apply list_elem_of_singleton in Hin. lra.
  - apply NoDup_singleton.
Qed.

Lemma trap_rule_no_interior_witness :
  trap_rule 0 1 2 two_samples =
    Some (addConcMaps (default ∅ (fmap_find 0 two_samples))
            (default ∅ (fmap_find 1 two_samples))).
Proof.
  apply (trap_rule_no_interior 0 1 2 two_samples).
  - lra.
  - exact two_samples_keys.
  - intros k m [[= <- _] | [[= <- _] | []]]; [left | right]; reflexivity.
Defined.

Lemma copy_outcome_witness :
  copy fixture_sum_mats (fun g => g) 7 fixture_cell loaded_cell =
    Stored (mkCell (v fixture_cell) (porosity fixture_cell) (rho fixture_cell)
              (Co_ loaded_cell) (Ci_ loaded_cell) (geom fixture_cell) 7 []
              {[7%Z := fixture_sum_mats []]} ∅ (mat_table_D loaded_cell))
  /\ copy fixture_sum_mats (fun g => g) 7
       (OneDimPPMNuclide_new fixture_geometry (fun _ => 1)) loaded_cell
     = CycRangeException.
Proof.
  split.
  - apply (copy_outcome fixture_sum_mats (fun g => g) 7 fixture_cell loaded_cell).
    + simpl. lra.
    + simpl. lra.
  - apply (copy_outcome fixture_sum_mats (fun g => g) 7
             (OneDimPPMNuclide_new fixture_geometry (fun _ => 1)) loaded_cell).
    simpl. lra.
Defined.
